(** * In-app messaging orchestration layer

    A shallow embedding of
    [packages/notifications/src/inAppMessaging/InAppMessaging.ts]:
    the plugin registry, the configuration merge, the lazily synchronised
    message cache, the dispatch pipeline and the analytics bridge.

    The class is stateful and talks to collaborators that live outside the
    file: the storage object, the providers, the Hub and the table of message
    event listeners.  Every method is embedded as a computation in a small
    state-and-exception monad that also records the calls made to the
    collaborators, so that statements such as "no provider is called" or
    "sync is invoked once" are statements about the recorded calls.  The
    methods that fan out over the providers are embedded job by job, in the
    order in which the event loop runs them; the order in which the
    promises of the providers settle is a parameter ([Timing]). *)

From stdpp Require Import gmap strings list fin_maps functions.
From Stdlib Require Import Ascii DecimalString.

Set Warnings "-register-all".

(** ** JavaScript values

    [config] is a [Record<string, any>].  The values that the class inspects
    are: a nullish test ([??]), object spread, truthiness, and the use of
    [config.storage] as a storage object.  Storage objects are mutable and
    shared, so a value only holds a reference to one.  [VInherited k] is the
    member [k] of [Object.prototype], which a lookup in a plain object finds
    when the object has no property of its own under that name: a built-in
    function, or the prototype object itself for [__proto__]. *)

Inductive Value : Type :=
  | VUndefined
  | VNull
  | VBool (b : bool)
  | VStr (s : string)
  | VObj (o : gmap string Value)
  | VStorage (h : nat)
  | VInherited (k : string).

(** The names [Object.prototype] answers to. *)
Definition Object_prototype : list string :=
  ["constructor"; "__defineGetter__"; "__defineSetter__"; "hasOwnProperty";
   "__lookupGetter__"; "__lookupSetter__"; "isPrototypeOf"; "propertyIsEnumerable";
   "toString"; "valueOf"; "__proto__"; "toLocaleString"].

Definition inherited (k : string) : bool := existsb (String.eqb k) Object_prototype.

(** [o[k]] on a plain object: the property of its own, else the member of
    [Object.prototype], else [undefined]. *)
Definition get_prop (o : gmap string Value) (k : string) : Value :=
  match o !! k with
  | Some v => v
  | None => if inherited k then VInherited k else VUndefined
  end.

(** [v ?? d] *)
Definition nullish_or (v d : Value) : Value :=
  match v with
  | VUndefined | VNull => d
  | _ => v
  end.

(** [if (v)] *)
Definition truthy (v : Value) : bool :=
  match v with
  | VUndefined | VNull => false
  | VBool b => b
  | VStr s => negb (String.eqb s "")
  | VObj _ | VStorage _ | VInherited _ => true
  end.

(** Own enumerable properties of a string: one per index. *)
Fixpoint index_chars (i : nat) (s : string) : list (string * Value) :=
  match s with
  | EmptyString => []
  | String c s' =>
      (NilZero.string_of_uint (Nat.to_uint i), VStr (String c EmptyString))
        :: index_chars (S i) s'
  end.

(** ** Outcomes of calls that may throw or reject *)

Inductive outcome (A : Type) : Type :=
  | Ok (a : A)
  | Throw (err : string).
Arguments Ok {A} a.
Arguments Throw {A} err.

Definition is_ok {A} (r : outcome A) : bool :=
  match r with Ok _ => true | Throw _ => false end.

(** ** Collaborators *)

(** The storage capability: [getItem], [setItem], [removeItem] and an
    optional [sync].  [Store] is the state of one storage object; [sync]
    answers [None] when [typeof storage.sync !== 'function'].  [ownProps]
    gives the own enumerable properties of the object, which is what an
    object spread of it copies. *)
Class StorageCapability (Store : Type) := {
  sync : Store -> option (outcome unit * Store);
  getItem : string -> Store -> outcome (option string) * Store;
  setItem : string -> string -> Store -> outcome unit * Store;
  removeItem : string -> Store -> outcome unit * Store;
  ownProps : Store -> gmap string Value
}.

(** [JSON.stringify] and [JSON.parse] restricted to message arrays.
    [JSON.parse("")] is a [SyntaxError]. *)
Class JSON (Message : Type) := {
  JSON_stringify : list Message -> outcome string;
  JSON_parse : string -> outcome (list Message);
  JSON_parse_empty : is_ok (JSON_parse "") = false
}.

(** The event loop.  The promises of the environment (the fetches of the
    providers, the promises their [processInAppMessages] return) settle when
    the environment decides, not in the order in which they were created:
    [settle_order l] lists, in the order in which they settle, the promises
    created in the order [l]. *)
Class Timing := {
  settle_order : forall {A : Type}, list A -> list A;
  settle_order_permutation : forall {A : Type} (l : list A), settle_order l ≡ₚ l
}.

(** [InAppMessagingProvider].  The getters are constant per provider;
    [configure] is recorded as a call (see [Effect]) and is taken to return:
    a provider whose [configure] throws is outside this model.
    [getInAppMessages] is the result the provider's fetch settles to, and
    [processInAppMessages] what the promise it returns settles to, given
    whatever the cache read resolved to ([None] is [undefined]). *)
Record InAppMessagingProvider (Message : Type) := {
  getProviderName : string;
  getCategory : string;
  getSubCategory : string;
  getInAppMessages : outcome (option (list Message));
  processInAppMessages : option (list Message) -> Value -> outcome (list Message)
}.
Arguments getProviderName {Message} _.
Arguments getCategory {Message} _.
Arguments getSubCategory {Message} _.
Arguments getInAppMessages {Message} _.
Arguments processInAppMessages {Message} _ _ _.

Inductive MessageEvent : Type :=
  | MESSAGES_RECEIVED
  | MESSAGE_DISPLAYED
  | MESSAGE_DISMISSED
  | MESSAGE_ACTION_TAKEN.

(** The Hub capsule payload [{ event, data }]. *)
Record HubPayload := {
  event : string;
  data : Value
}.

Definition STORAGE_KEY_SUFFIX : string := "_inAppMessages".

Section InAppMessaging.

Context {Message Store : Type}.
Context `{!JSON Message} `{!StorageCapability Store} {timing : Timing}.

Abbreviation Provider := (InAppMessagingProvider Message).

(** [new AWSPinpointProvider()], declared in [./Providers]. *)
Context (AWSPinpointProvider : Provider).

(** Payload handed to [notifyMessageEventListeners], which is declared in
    [../EventListeners] and, like [Hub.listen] and the logger, is taken to
    return. *)
Inductive Payload : Type :=
  | PMessages (ms : list Message)
  | PMessage (m : Message).

(** Calls made to the collaborators, in the order they are made. *)
Inductive Effect : Type :=
  | EStorageSync (h : nat)
  | EGetItem (h : nat) (key : string)
  | ESetItem (h : nat) (key value : string)
  | ERemoveItem (h : nat) (key : string)
  | EProviderConfigure (p : Provider) (c : Value)
  | EGetInAppMessages (p : Provider)
  | EProcessInAppMessages (p : Provider) (messages : option (list Message)) (ev : Value)
  | ENotify (payload : Payload) (kind : MessageEvent)
  | EHubListen (channel : string)
  | ELogDebug (msg : string)
  | ELogError (msg : string).

(** ** State *)

(** The private fields of the class. *)
Record Fields := {
  config : gmap string Value;
  listeningForAnalyticEvents : bool;
  pluggables : list Provider;
  storageSynced : bool
}.

(** The instance together with the storage objects it can reach. *)
Record World := {
  this : Fields;
  stores : nat -> Store
}.

Definition set_config (c : gmap string Value) (w : World) : World :=
  {| this := {| config := c;
                listeningForAnalyticEvents := listeningForAnalyticEvents (this w);
                pluggables := pluggables (this w);
                storageSynced := storageSynced (this w) |};
     stores := stores w |}.

Definition set_listening (b : bool) (w : World) : World :=
  {| this := {| config := config (this w);
                listeningForAnalyticEvents := b;
                pluggables := pluggables (this w);
                storageSynced := storageSynced (this w) |};
     stores := stores w |}.

Definition set_pluggables (ps : list Provider) (w : World) : World :=
  {| this := {| config := config (this w);
                listeningForAnalyticEvents := listeningForAnalyticEvents (this w);
                pluggables := ps;
                storageSynced := storageSynced (this w) |};
     stores := stores w |}.

Definition set_storageSynced (b : bool) (w : World) : World :=
  {| this := {| config := config (this w);
                listeningForAnalyticEvents := listeningForAnalyticEvents (this w);
                pluggables := pluggables (this w);
                storageSynced := b |};
     stores := stores w |}.

Definition set_store (h : nat) (s : Store) (w : World) : World :=
  {| this := this w; stores := <[h := s]> (stores w) |}.

(** ** The monad *)

Definition M (A : Type) : Type := World -> outcome A * World * list Effect.

Definition ret {A} (a : A) : M A := fun w => (Ok a, w, []).

Definition throw {A} (err : string) : M A := fun w => (Throw err, w, []).

Definition bind {A B} (m : M A) (f : A -> M B) : M B :=
  fun w =>
    match m w with
    | (Ok a, w1, t1) =>
        match f a w1 with
        | (r, w2, t2) => (r, w2, t1 ++ t2)
        end
    | (Throw err, w1, t1) => (Throw err, w1, t1)
    end.

(** [try { m } catch (err) { handler err }] *)
Definition try_catch {A} (m : M A) (handler : string -> M A) : M A :=
  fun w =>
    match m w with
    | (Ok a, w1, t1) => (Ok a, w1, t1)
    | (Throw err, w1, t1) =>
        match handler err w1 with
        | (r, w2, t2) => (r, w2, t1 ++ t2)
        end
    end.

Definition gets {A} (f : World -> A) : M A := fun w => (Ok (f w), w, []).

Definition modify (f : World -> World) : M unit := fun w => (Ok tt, f w, []).

Definition emit (e : Effect) : M unit := fun w => (Ok tt, w, [e]).

Definition lift {A} (r : outcome A) : M A := fun w => (r, w, []).

Notation "'let*' x ':=' m 'in' k" := (bind m (fun x => k))
  (at level 10, x name, m at level 100, k at level 200).
Notation "m >> k" := (bind m (fun _ => k))
  (at level 90, right associativity).

(** [for (x of xs) f(x)] keeping the results. *)
Fixpoint mapM {A B} (f : A -> M B) (xs : list A) : M (list B) :=
  match xs with
  | [] => ret []
  | x :: xs' =>
      let* y := f x in
      let* ys := mapM f xs' in
      ret (y :: ys)
  end.

Definition result_of {A} (x : outcome A * World * list Effect) : outcome A := x.1.1.
Definition world_of {A} (x : outcome A * World * list Effect) : World := x.1.2.
Definition effects_of {A} (x : outcome A * World * list Effect) : list Effect := x.2.

(** ** Object spread *)

(** [{ ...v }]: the enumerable properties of its own that [v] has; a
    member of [Object.prototype] has none. *)
Definition spread (v : Value) : M (gmap string Value) :=
  match v with
  | VUndefined | VNull | VBool _ | VInherited _ => ret ∅
  | VStr s => ret (list_to_map (index_chars 0 s))
  | VObj o => ret o
  | VStorage h => gets (fun w => ownProps (stores w h))
  end.

Definition fmapM {A B} (f : A -> B) (m : M A) : M B :=
  let* x := m in ret (f x).

Definition log_debug (msg : string) : M unit := emit (ELogDebug msg).
Definition log_error (msg : string) : M unit := emit (ELogError msg).

(** ** Member calls on [config.storage]

    Reading a member of [undefined] or [null] throws; calling a member that
    is not a function throws; otherwise the storage object answers and may
    change. *)

Definition storage_of (w : World) : Value := get_prop (config (this w)) "storage".

Definition storage_getItem (storage : Value) (key : string) : M (option string) :=
  match storage with
  | VUndefined | VNull => throw "TypeError: cannot read properties of a nullish value"
  | VStorage h =>
      fun w =>
        match getItem key (stores w h) with
        | (r, s') => (r, set_store h s' w, [EGetItem h key])
        end
  | _ => throw "TypeError: storage.getItem is not a function"
  end.

Definition storage_setItem (storage : Value) (key : string) (value : outcome string)
  : M unit :=
  match storage with
  | VUndefined | VNull => throw "TypeError: cannot read properties of a nullish value"
  | VStorage h =>
      let* v := lift value in
      fun w =>
        match setItem key v (stores w h) with
        | (r, s') => (r, set_store h s' w, [ESetItem h key v])
        end
  | _ => lift value >> throw "TypeError: storage.setItem is not a function"
  end.

Definition storage_removeItem (storage : Value) (key : string) : M unit :=
  match storage with
  | VUndefined | VNull => throw "TypeError: cannot read properties of a nullish value"
  | VStorage h =>
      fun w =>
        match removeItem key (stores w h) with
        | (r, s') => (r, set_store h s' w, [ERemoveItem h key])
        end
  | _ => throw "TypeError: storage.removeItem is not a function"
  end.

(** [typeof storage.sync === 'function']: the handle of the storage object
    when it has a [sync] function. *)
Definition typeof_sync_is_function (storage : Value) : M (option nat) :=
  match storage with
  | VUndefined | VNull => throw "TypeError: cannot read properties of a nullish value"
  | VStorage h =>
      gets (fun w => match sync (stores w h) with Some _ => Some h | None => None end)
  | _ => ret None
  end.

(** ** [syncStorage]

    An [async] function runs synchronously up to its first [await].  The
    part of [syncStorage] before [await storage.sync()] is [syncStorage_call];
    it answers what the function is waiting for.  [syncStorage_resume] is the
    part after it. *)

Inductive SyncAwait : Type :=
  | Settled
  | Awaiting (r : outcome unit).

Definition storage_sync (h : nat) : M SyncAwait :=
  fun w =>
    match sync (stores w h) with
    | Some (r, s') => (Ok (Awaiting r), set_store h s' w, [EStorageSync h])
    | None => (Throw "TypeError: storage.sync is not a function", w, [])
    end.

Definition syncStorage_call : M SyncAwait :=
  let* storage := gets storage_of in
  try_catch
    (let* f := typeof_sync_is_function storage in
     match f with
     | Some h => storage_sync h
     | None => modify (set_storageSynced true) >> ret Settled
     end)
    (fun err => log_error "Failed to sync storage" >> ret Settled).

Definition syncStorage_resume (a : SyncAwait) : M unit :=
  match a with
  | Settled => ret tt
  | Awaiting r =>
      try_catch
        (lift r >> modify (set_storageSynced true))
        (fun err => log_error "Failed to sync storage")
  end.

Definition syncStorage : M unit :=
  let* a := syncStorage_call in syncStorage_resume a.

(** ** The cache operations

    Each of [getMessages], [setMessages] and [removeMessages] either runs to
    its end at once (the flag is set) or stops at [await this.syncStorage()].
    [X_begin] is the part run when the method is called, [X_resume] the part
    run when the awaited promise has settled, and [X] the method run alone. *)

Inductive Suspended (R : Type) : Type :=
  | Finished (r : R)
  | AwaitingSync (a : SyncAwait).
Arguments Finished {R} r.
Arguments AwaitingSync {R} a.

(** [if (!this.storageSynced) { await this.syncStorage(); }] run alone. *)
Definition syncIfNeeded : M unit :=
  let* synced := gets (fun w => storageSynced (this w)) in
  if negb synced then syncStorage else ret tt.

Definition getMessages_rest (key : string) : M (option (list Message)) :=
  let* storage := gets storage_of in
  let* storedMessages := storage_getItem storage key in
  match storedMessages with
  | Some s => if String.eqb s "" then ret (Some []) else fmapM Some (lift (JSON_parse s))
  | None => ret (Some [])
  end.

Definition getMessages_catch {R} (r : R) (err : string) : M R :=
  log_error "Failed to retrieve in-app messages from storage" >> ret r.

Definition getMessages_begin (key : string) : M (Suspended (option (list Message))) :=
  try_catch
    (let* synced := gets (fun w => storageSynced (this w)) in
     if negb synced
     then fmapM AwaitingSync syncStorage_call
     else fmapM Finished (getMessages_rest key))
    (getMessages_catch (Finished None)).

Definition getMessages_resume (key : string) (s : Suspended (option (list Message)))
  : M (option (list Message)) :=
  match s with
  | Finished r => ret r
  | AwaitingSync a =>
      try_catch (syncStorage_resume a >> getMessages_rest key) (getMessages_catch None)
  end.

Definition getMessages (key : string) : M (option (list Message)) :=
  let* s := getMessages_begin key in getMessages_resume key s.

Definition setMessages_rest (key : string) (messages : list Message) : M unit :=
  let* storage := gets storage_of in
  storage_setItem storage key (JSON_stringify messages).

Definition setMessages_catch {R} (r : R) (err : string) : M R :=
  log_error "Failed to store in-app messages" >> ret r.

Definition setMessages_begin (key : string) (messages : option (list Message))
  : M (Suspended unit) :=
  match messages with
  | None => ret (Finished tt)
  | Some ms =>
      try_catch
        (let* synced := gets (fun w => storageSynced (this w)) in
         if negb synced
         then fmapM AwaitingSync syncStorage_call
         else fmapM Finished (setMessages_rest key ms))
        (setMessages_catch (Finished tt))
  end.

Definition setMessages_resume (key : string) (messages : option (list Message))
  (s : Suspended unit) : M unit :=
  match s, messages with
  | AwaitingSync a, Some ms =>
      try_catch (syncStorage_resume a >> setMessages_rest key ms) (setMessages_catch tt)
  | _, _ => ret tt
  end.

Definition setMessages (key : string) (messages : option (list Message)) : M unit :=
  let* s := setMessages_begin key messages in setMessages_resume key messages s.

Definition removeMessages_rest (key : string) : M unit :=
  let* storage := gets storage_of in
  storage_removeItem storage key.

Definition removeMessages_catch {R} (r : R) (err : string) : M R :=
  log_error "Failed to remove in-app messages from storage" >> ret r.

Definition removeMessages_begin (key : string) : M (Suspended unit) :=
  try_catch
    (let* synced := gets (fun w => storageSynced (this w)) in
     if negb synced
     then fmapM AwaitingSync syncStorage_call
     else fmapM Finished (removeMessages_rest key))
    (removeMessages_catch (Finished tt)).

Definition removeMessages_resume (key : string) (s : Suspended unit) : M unit :=
  match s with
  | Finished _ => ret tt
  | AwaitingSync a =>
      try_catch (syncStorage_resume a >> removeMessages_rest key) (removeMessages_catch tt)
  end.

Definition removeMessages (key : string) : M unit :=
  let* s := removeMessages_begin key in removeMessages_resume key s.

(** ** Registry and configuration *)

Definition storage_key (p : Provider) : string :=
  getProviderName p ++ STORAGE_KEY_SUFFIX.

Definition category_ok (p : Provider) : bool :=
  String.eqb (getCategory p) "Notifications"
  && String.eqb (getSubCategory p) "InAppMessaging".

(** [pluggable] is [None] for a nullish argument. *)
Definition addPluggable (pluggable : option Provider) : M unit :=
  match pluggable with
  | Some p =>
      if category_ok p
      then
        let* ps := gets (fun w => pluggables (this w)) in
        modify (set_pluggables (ps ++ [p])) >>
        let* c := gets (fun w => config (this w)) in
        emit (EProviderConfigure p (get_prop c (getProviderName p)))
      else ret tt
  | None => ret tt
  end.

Definition name_is (providerName : string) (p : Provider) : bool :=
  String.eqb (getProviderName p) providerName.

Definition getPluggable (providerName : string) : M (option Provider) :=
  let* ps := gets (fun w => pluggables (this w)) in
  let pluggable := find (name_is providerName) ps in
  match pluggable with
  | Some _ => ret pluggable
  | None => log_debug ("No plugin found with name " ++ providerName) >> ret pluggable
  end.

(** [Array.prototype.findIndex]; [None] is [-1]. *)
Fixpoint findIndex {A} (f : A -> bool) (l : list A) : option nat :=
  match l with
  | [] => None
  | x :: l' => if f x then Some 0 else S <$> findIndex f l'
  end.

Definition removePluggable (providerName : string) : M unit :=
  let* ps := gets (fun w => pluggables (this w)) in
  match findIndex (name_is providerName) ps with
  | None => log_debug ("No plugin found with name " ++ providerName)
  | Some index => modify (set_pluggables (delete index ps))
  end.

(** The argument handed to a provider by [configure]:
    [{ ...this.config, ...(this.config[name] ?? {}) }]. *)
Definition merged_config (p : Provider) : M Value :=
  let* c := gets (fun w => config (this w)) in
  let* sub := spread (nullish_or (get_prop c (getProviderName p)) (VObj ∅)) in
  ret (VObj (sub ∪ c)).

(** [arg] is [None] when [configure] is called without an argument.  The
    [configure] of a provider is taken to return, here and in [addPluggable]
    (see [InAppMessagingProvider]). *)
Definition configure (arg : option (gmap string Value)) : M (gmap string Value) :=
  let a := default ∅ arg in
  let listenForAnalyticsEvents :=
    match get_prop a "listenForAnalyticsEvents" with
    | VUndefined => VBool true
    | v => v
    end in
  let rest := delete "listenForAnalyticsEvents" a in
  let* old := gets (fun w => config (this w)) in
  modify (set_config (rest ∪ old)) >>
  log_debug "configure InAppMessaging" >>
  let* ps := gets (fun w => pluggables (this w)) in
  mapM (fun p => let* c := merged_config p in emit (EProviderConfigure p c)) ps >>
  let* ps := gets (fun w => pluggables (this w)) in
  (if Nat.eqb (length ps) 0 then addPluggable (Some AWSPinpointProvider) else ret tt) >>
  let* listening := gets (fun w => listeningForAnalyticEvents (this w)) in
  (if truthy listenForAnalyticsEvents && negb listening
   then emit (EHubListen "analytics") >> modify (set_listening true)
   else ret tt) >>
  gets (fun w => config (this w)).

(** ** [Promise.all]

    The promise resolves, once every promise has resolved, with the values
    by position; it rejects as soon as one promise rejects, with that
    rejection, the first one in time.  [by_position] lists what the promises
    settle to in the order of the array, [in_time] in the order in which
    they settle. *)

Definition rejection {A} (r : outcome A) : option string :=
  match r with
  | Ok _ => None
  | Throw err => Some err
  end.

Definition fulfilled {A} (r : outcome A) : option A :=
  match r with
  | Ok a => Some a
  | Throw _ => None
  end.

Definition first_rejection {A} (in_time : list (outcome A)) : option string :=
  head (omap rejection in_time).

Definition Promise_all {A} (by_position in_time : list (outcome A)) : outcome (list A) :=
  match first_rejection in_time with
  | Some err => Throw err
  | None => Ok (omap fulfilled by_position)
  end.

(** [await Promise.all<void>(...)], whose values are dropped. *)
Definition Promise_all_void {A} (in_time : list (outcome A)) : outcome unit :=
  match first_rejection in_time with
  | Some err => Throw err
  | None => Ok tt
  end.

(** ** The fan-out operations

    [this.pluggables.map(async pluggable => ...)] calls every callback in
    registry order, and each runs up to its first [await].  The branches
    then go on, one job at a time, in the order in which what they await
    settles.  A branch that rejects does not stop the others.

    A branch that waits for [syncStorage] waits for the storage object of
    the configuration, the same in every branch; its [sync] promises are
    taken to settle in the order in which [sync] was called, so that these
    branches go on in the order in which they stopped. *)

(** [syncMessages].  The fetches are started in registry order; each branch
    goes on when its own fetch has settled, so in the order [settle_order]
    gives, and a branch whose fetch rejected is the first to reject if its
    fetch is the first rejected one to settle.  [setMessages] is begun in
    that order and, where it had to wait for [syncStorage], resumed in that
    order. *)
Definition syncMessages : M unit :=
  let* ps := gets (fun w => pluggables (this w)) in
  let* fetched :=
    mapM (fun p => emit (EGetInAppMessages p) >> ret (p, getInAppMessages p)) ps in
  let* begun :=
    mapM (fun '(p, r) =>
            match r with
            | Ok messages =>
                let* s := setMessages_begin (storage_key p) messages in
                ret (Ok (p, messages, s))
            | Throw err => ret (Throw err)
            end) (settle_order fetched) in
  let* done :=
    mapM (fun b =>
            match b with
            | Ok (p, messages, s) =>
                fmapM Ok (setMessages_resume (storage_key p) messages s)
            | Throw err => ret (Throw err)
            end) begun in
  lift (Promise_all_void done).

(** [clearMessages].  [removeMessages] is begun in every branch, in
    registry order, and resumed where it had to wait for [syncStorage]. *)
Definition clearMessages : M unit :=
  log_debug "clearing In-App Messages" >>
  let* ps := gets (fun w => pluggables (this w)) in
  let* begun :=
    mapM (fun p => let* s := removeMessages_begin (storage_key p) in ret (p, s)) ps in
  mapM (fun '(p, s) => removeMessages_resume (storage_key p) s) begun >>
  ret tt.

(** The cache reads of [dispatchEvent]: [getMessages] is begun in every
    branch, in registry order, and the branches in which it had to wait for
    [syncStorage] are then resumed, in the order in which they stopped. *)
Definition begin_reads (ps : list Provider)
  : M (list (Provider * Suspended (option (list Message)))) :=
  mapM (fun p => let* s := getMessages_begin (storage_key p) in ret (p, s)) ps.

Definition resume_reads (begun : list (Provider * Suspended (option (list Message))))
  : M (list (Provider * option (list Message))) :=
  mapM (fun '(p, s) =>
          let* messages := getMessages_resume (storage_key p) s in
          ret (p, messages)) begun.

Definition waited {R} (s : Suspended R) : bool :=
  match s with
  | Finished _ => false
  | AwaitingSync _ => true
  end.

(** The order in which the branches of [dispatchEvent] reach the call of
    [processInAppMessages].  A branch whose [getMessages] ran to its end
    when it was called awaits a promise that is already resolved and goes
    on with the next job; a branch whose [getMessages] had to wait first
    has that read to finish and comes after.  This happens on an instance
    whose flag is not set and whose storage has no [sync]: the first
    branch sets the flag and waits, the later ones do not wait, and they
    are evaluated before the first. *)
Definition evaluation_order {X}
    (begun : list (Provider * Suspended (option (list Message)))) (read : list X)
  : list X :=
  let branches := zip begun read in
  map snd (List.filter (fun b => negb (waited b.1.2)) branches)
  ++ map snd (List.filter (fun b => waited b.1.2) branches).

(** The call made in one branch of [dispatchEvent], given the provider and
    what its cache read resolved to, and what the promise it returns
    settles to. *)
Definition process_call (ev : Value) (x : Provider * option (list Message)) : Effect :=
  EProcessInAppMessages x.1 x.2 ev.

Definition process_result (ev : Value) (x : Provider * option (list Message))
  : outcome (list Message) :=
  processInAppMessages x.1 x.2 ev.

(** The calls of [processInAppMessages], in the order given, with what
    the promises they return settle to. *)
Definition process_all (ev : Value) (read : list (Provider * option (list Message)))
  : M (list (outcome (list Message))) :=
  mapM (fun x => emit (process_call ev x) >> ret (process_result ev x)) read.

(** [dispatchEvent].  The providers are called in [evaluation_order]; the
    promises they return settle in the order [settle_order] gives, which
    decides the rejection of the join; the values of the join are by
    position, so in registry order. *)
Definition dispatchEvent (ev : Value) : M unit :=
  let* ps := gets (fun w => pluggables (this w)) in
  let* begun := begin_reads ps in
  let* read := resume_reads begun in
  let* answers := process_all ev (evaluation_order begun read) in
  let by_position := map (process_result ev) read in
  let* messages := lift (Promise_all by_position (settle_order answers)) in
  let flattenedMessages := concat messages in
  if Nat.eqb (length flattenedMessages) 0
  then ret tt
  else emit (ENotify (PMessages flattenedMessages) MESSAGES_RECEIVED).

Definition notifyMessageDisplayed (message : Message) : M unit :=
  emit (ENotify (PMessage message) MESSAGE_DISPLAYED).

Definition notifyMessageDismissed (message : Message) : M unit :=
  emit (ENotify (PMessage message) MESSAGE_DISMISSED).

Definition notifyMessageActionTaken (message : Message) : M unit :=
  emit (ENotify (PMessage message) MESSAGE_ACTION_TAKEN).

(** The Hub callback.  The promise of [dispatchEvent] is not awaited, so a
    rejection does not reach the Hub. *)
Definition analyticsListener (payload : HubPayload) : M unit :=
  if String.eqb (event payload) "record"
  then try_catch (dispatchEvent (data payload)) (fun _ => ret tt)
  else ret tt.

(** ** The instance over time *)

(** [new InAppMessaging()]; [h0] is what [new StorageHelper().getStorage()]
    returns. *)
Definition constructor (h0 : nat) (sigma : nat -> Store) : World :=
  {| this := {| config := {[ "storage" := VStorage h0 ]};
                listeningForAnalyticEvents := false;
                pluggables := [];
                storageSynced := false |};
     stores := sigma |}.

(** What the host, or the Hub, can do with the instance. *)
Inductive Call : Type :=
  | CallConfigure (arg : option (gmap string Value))
  | CallGetPluggable (providerName : string)
  | CallAddPluggable (pluggable : option Provider)
  | CallRemovePluggable (providerName : string)
  | CallSyncMessages
  | CallClearMessages
  | CallDispatchEvent (ev : Value)
  | CallNotifyMessageDisplayed (message : Message)
  | CallNotifyMessageDismissed (message : Message)
  | CallNotifyMessageActionTaken (message : Message)
  | HubAnalytics (payload : HubPayload).

Definition forget {A} (m : M A) : M unit := fmapM (fun _ => tt) m.

Definition call (c : Call) : M unit :=
  match c with
  | CallConfigure arg => forget (configure arg)
  | CallGetPluggable n => forget (getPluggable n)
  | CallAddPluggable p => addPluggable p
  | CallRemovePluggable n => removePluggable n
  | CallSyncMessages => syncMessages
  | CallClearMessages => clearMessages
  | CallDispatchEvent ev => dispatchEvent ev
  | CallNotifyMessageDisplayed m => notifyMessageDisplayed m
  | CallNotifyMessageDismissed m => notifyMessageDismissed m
  | CallNotifyMessageActionTaken m => notifyMessageActionTaken m
  | HubAnalytics payload =>
      let* listening := gets (fun w => listeningForAnalyticEvents (this w)) in
      if listening then analyticsListener payload else ret tt
  end.

(** States of the instance after any number of calls, whether they
    returned or threw. *)
Inductive reachable (h0 : nat) (sigma : nat -> Store) : World -> Prop :=
  | reachable_new : reachable h0 sigma (constructor h0 sigma)
  | reachable_call w c :
      reachable h0 sigma w -> reachable h0 sigma (world_of (call c w)).

(** ** Reading the recorded calls *)

Definition is_sync (e : Effect) : bool :=
  match e with EStorageSync _ => true | _ => false end.

Definition is_process (e : Effect) : bool :=
  match e with EProcessInAppMessages _ _ _ => true | _ => false end.

Definition is_received (e : Effect) : bool :=
  match e with ENotify _ MESSAGES_RECEIVED => true | _ => false end.

Definition is_storage_write (e : Effect) : bool :=
  match e with ESetItem _ _ _ | ERemoveItem _ _ => true | _ => false end.

(** The cache operations as the pipeline issues them, and the part of each
    that follows the sync step. *)
Inductive CacheOp : Type :=
  | CacheRead (key : string)
  | CacheWrite (key : string) (messages : list Message)
  | CacheClear (key : string).

Definition cache_op (o : CacheOp) : M unit :=
  match o with
  | CacheRead key => forget (getMessages key)
  | CacheWrite key messages => setMessages key (Some messages)
  | CacheClear key => removeMessages key
  end.

Definition guarded_read (key : string) : M (option (list Message)) :=
  try_catch (getMessages_rest key) (getMessages_catch None).

Definition guarded_write (key : string) (messages : list Message) : M unit :=
  try_catch (setMessages_rest key messages) (setMessages_catch tt).

Definition guarded_remove (key : string) : M unit :=
  try_catch (removeMessages_rest key) (removeMessages_catch tt).

Definition cache_access (o : CacheOp) : M unit :=
  match o with
  | CacheRead key => forget (guarded_read key)
  | CacheWrite key messages => guarded_write key messages
  | CacheClear key => guarded_remove key
  end.

Definition sync_calls (t : list Effect) : nat := length (List.filter is_sync t).

(** The instance after a sequence of calls. *)
Definition after (calls : list Call) (w : World) : World :=
  foldl (fun w c => world_of (call c w)) w calls.

(** The call is [configure] with an argument that has a [storage] key. *)
Definition provides_storage (c : Call) : bool :=
  match c with
  | CallConfigure (Some a) => bool_decide (is_Some (a !! "storage"))
  | _ => false
  end.

(** Every registered provider passes the check of [addPluggable]. *)
Definition valid_registry (w : World) : Prop :=
  Forall (fun p => getCategory p = "Notifications"
                   /\ getSubCategory p = "InAppMessaging")
         (pluggables (this w)).

(** ** Properties of computations *)

(** [m] never throws. *)
Definition total {A} (m : M A) : Prop :=
  forall w, is_ok (result_of (m w)) = true.

(** [m] leaves the observation [f] of the state as it was. *)
Definition keeps {X A} (f : World -> X) (m : M A) : Prop :=
  forall w, f (world_of (m w)) = f w.

(** [m] makes no call of the kind [sel]. *)
Definition silent {A} (sel : Effect -> bool) (m : M A) : Prop :=
  forall w, List.filter sel (effects_of (m w)) = [].

(** [m] maintains [I]. *)
Definition preserves {A} (I : World -> Prop) (m : M A) : Prop :=
  forall w, I w -> I (world_of (m w)).

(** ** Further readings of the recorded calls *)

Definition is_listen (e : Effect) : bool :=
  match e with EHubListen _ => true | _ => false end.

Definition is_configure (e : Effect) : bool :=
  match e with EProviderConfigure _ _ => true | _ => false end.

Definition is_fetch (e : Effect) : bool :=
  match e with EGetInAppMessages _ => true | _ => false end.

Definition hub_listens (t : list Effect) : nat := length (List.filter is_listen t).

(** The calls recorded over a sequence of calls on the instance, with the
    state reached. *)
Fixpoint run_calls (calls : list Call) (w : World) : World * list Effect :=
  match calls with
  | [] => (w, [])
  | c :: calls' =>
      let x := call c w in
      let '(w', t) := run_calls calls' (world_of x) in
      (w', effects_of x ++ t)
  end.

(** [{ ...v }] given the storage objects. *)
Definition own_properties (sigma : nat -> Store) (v : Value) : gmap string Value :=
  match v with
  | VUndefined | VNull | VBool _ | VInherited _ => ∅
  | VStr s => list_to_map (index_chars 0 s)
  | VObj o => o
  | VStorage h => ownProps (sigma h)
  end.

(** The object [configure] hands to the provider [p] when the stored
    configuration is [c]. *)
Definition handed_config (sigma : nat -> Store) (c : gmap string Value) (p : Provider)
  : Value :=
  VObj (own_properties sigma (nullish_or (get_prop c (getProviderName p)) (VObj ∅)) ∪ c).

(** The write [syncMessages] issues for the provider [p] on the storage
    object [h], if any. *)
Definition sync_write (h : nat) (p : Provider) : option Effect :=
  match getInAppMessages p with
  | Ok (Some messages) =>
      match JSON_stringify messages with
      | Ok s => Some (ESetItem h (storage_key p) s)
      | Throw _ => None
      end
  | _ => None
  end.

(** With the flag set, [m] does not call [sync] and leaves the flag set. *)
Definition synced_quiet {A} (m : M A) : Prop :=
  forall w,
    storageSynced (this w) = true ->
    sync_calls (effects_of (m w)) = 0
    /\ storageSynced (this (world_of (m w))) = true.

(** Whether [configure], given the argument, asks for the analytics
    subscription: [listenForAnalyticsEvents], [true] when absent. *)
Definition asks_to_listen (arg : option (gmap string Value)) : bool :=
  truthy match get_prop (default ∅ arg) "listenForAnalyticsEvents" with
         | VUndefined => VBool true
         | v => v
         end.

(** The configuration stored by [configure] given the argument and the
    configuration stored before. *)
Definition merged_with (arg : option (gmap string Value)) (c : gmap string Value)
  : gmap string Value :=
  delete "listenForAnalyticsEvents" (default ∅ arg) ∪ c.

(** The state in which the cache goes straight to the storage object [h]:
    the flag is set and [config.storage] is that object. *)
Definition synced_on (h : nat) (w : World) : Prop :=
  storageSynced (this w) = true /\ storage_of w = VStorage h.

End InAppMessaging.

Notation "'let*' x ':=' m 'in' k" := (bind m (fun x => k))
  (at level 10, x name, m at level 100, k at level 200).
Notation "m >> k" := (bind m (fun _ => k))
  (at level 90, right associativity).

Arguments Effect Message : clear implicits.
Arguments Call Message : clear implicits.
Arguments Finished {R} r.
Arguments AwaitingSync {R} a.
Arguments World Message Store : clear implicits.
Arguments M Message Store A : clear implicits.

(** ** A storage object and a codec to run the methods on

    An in-memory storage object whose [sync] is absent, succeeds or rejects,
    and whose reads can be made to throw; and a codec for one-letter
    messages, [["a"; "b"]] being stored as ["[ab]"]. *)

Inductive SyncBehaviour : Type :=
  | NoSyncFunction
  | SyncResolves
  | SyncRejects.

Record MemoryStorage := {
  items : gmap string string;
  sync_behaviour : SyncBehaviour;
  reads_throw : bool
}.

Definition memory_put (k v : string) (s : MemoryStorage) : MemoryStorage :=
  {| items := <[k := v]> (items s);
     sync_behaviour := sync_behaviour s;
     reads_throw := reads_throw s |}.

Definition memory_remove (k : string) (s : MemoryStorage) : MemoryStorage :=
  {| items := delete k (items s);
     sync_behaviour := sync_behaviour s;
     reads_throw := reads_throw s |}.

#[export] Instance memory_storage : StorageCapability MemoryStorage := {|
  sync s :=
    match sync_behaviour s with
    | NoSyncFunction => None
    | SyncResolves => Some (Ok tt, s)
    | SyncRejects => Some (Throw "sync rejected", s)
    end;
  getItem k s :=
    if reads_throw s then (Throw "read failed", s) else (Ok (items s !! k), s);
  setItem k v s := (Ok tt, memory_put k v s);
  removeItem k s := (Ok tt, memory_remove k s);
  ownProps s := VStr <$> items s
|}.

Definition letters_stringify (ms : list ascii) : outcome string :=
  Ok (String "["%char (String.string_of_list_ascii ms ++ "]")).

Definition letters_parse (s : string) : outcome (list ascii) :=
  match s with
  | String "["%char body =>
      match rev (String.list_ascii_of_string body) with
      | "]"%char :: r => Ok (rev r)
      | _ => Throw "SyntaxError"
      end
  | _ => Throw "SyntaxError"
  end.

#[export] Instance letters_JSON : JSON ascii := {|
  JSON_stringify := letters_stringify;
  JSON_parse := letters_parse;
  JSON_parse_empty := eq_refl
|}.

Definition a_message : ascii := "a"%char.
Definition b_message : ascii := "b"%char.

(** A provider that answers the first cached message, if any. *)
Definition first_cached (name category subCategory : string)
  : InAppMessagingProvider ascii :=
  {| getProviderName := name;
     getCategory := category;
     getSubCategory := subCategory;
     getInAppMessages := Ok (Some [a_message; b_message]);
     processInAppMessages messages ev :=
       Ok (match messages with Some (m :: _) => [m] | _ => [] end) |}.

(** A provider that never matches. *)
Definition never_matches (name : string) : InAppMessagingProvider ascii :=
  {| getProviderName := name;
     getCategory := "Notifications";
     getSubCategory := "InAppMessaging";
     getInAppMessages := Ok (Some []);
     processInAppMessages messages ev := Ok [] |}.

Definition push_provider : InAppMessagingProvider ascii :=
  first_cached "push" "Notifications" "InAppMessaging".

Definition pull_provider : InAppMessagingProvider ascii := never_matches "pull".

Definition analytics_provider : InAppMessagingProvider ascii :=
  first_cached "AWSPinpoint" "Analytics" "InAppMessaging".

Definition empty_memory (b : SyncBehaviour) : MemoryStorage :=
  {| items := ∅; sync_behaviour := b; reads_throw := false |}.

(** A fresh instance over one in-memory storage object. *)
Definition fresh (b : SyncBehaviour) : World ascii MemoryStorage :=
  constructor 0 (fun _ => empty_memory b).

(** [{ event: "other", data: {} }] *)
Definition other_event : Value :=
  VObj (<["event" := VStr "other"]> (<["data" := VObj ∅]> ∅)).

(** An instance with [push_provider] registered and ["[ab]"] cached for it. *)
Definition push_cached : World ascii MemoryStorage :=
  {| this := {| config := {[ "storage" := VStorage 0 ]};
                listeningForAnalyticEvents := true;
                pluggables := [push_provider];
                storageSynced := true |};
     stores := fun _ => memory_put "push_inAppMessages" "[ab]" (empty_memory SyncResolves) |}.

(** The default provider of the examples. *)
Definition pinpoint_provider : InAppMessagingProvider ascii :=
  first_cached "AWSPinpoint" "Notifications" "InAppMessaging".

(** [{ name: "clicked" }], an event as the Hub delivers it under ["record"]. *)
Definition clicked_event : Value := VObj (<["name" := VStr "clicked"]> ∅).

(** An instance with [push_provider] and [pull_provider] registered, in this
    order, ["[ab]"] cached for the first and ["[b]"] for the second. *)
Definition two_providers : World ascii MemoryStorage :=
  {| this := {| config := {[ "storage" := VStorage 0 ]};
                listeningForAnalyticEvents := true;
                pluggables := [push_provider; pull_provider];
                storageSynced := false |};
     stores := fun _ => memory_put "pull_inAppMessages" "[b]"
                          (memory_put "push_inAppMessages" "[ab]"
                             (empty_memory SyncResolves)) |}.

(** A storage object whose reads throw. *)
Definition broken_memory : MemoryStorage :=
  {| items := {[ "push_inAppMessages" := "[ab]" ]};
     sync_behaviour := SyncResolves;
     reads_throw := true |}.

(** A second provider registered under the name ["push"]. *)
Definition push_twin : InAppMessagingProvider ascii := never_matches "push".

(** A new instance on which [push_provider] alone has been registered. *)
Definition one_provider : World ascii MemoryStorage :=
  set_pluggables [push_provider] (fresh SyncResolves).

(** [{ push: { appId: "x" }, appId: "y" }] *)
Definition push_config : gmap string Value :=
  <["push" := VObj {[ "appId" := VStr "x" ]}]> (<["appId" := VStr "y"]> ∅).

(** The event loop of the examples: the promises of the environment
    settle in the order in which they were created. *)
Definition in_call_order : Timing :=
  {| settle_order := fun A l => l;
     settle_order_permutation := fun A l => reflexivity l |}.

(** [two_providers] with the flag set. *)
Definition two_synced : World ascii MemoryStorage :=
  set_storageSynced true two_providers.

(** [two_providers] on a storage object without [sync]. *)
Definition two_without_sync : World ascii MemoryStorage :=
  {| this := this two_providers;
     stores := fun _ => memory_put "pull_inAppMessages" "[b]"
                          (memory_put "push_inAppMessages" "[ab]"
                             (empty_memory NoSyncFunction)) |}.

(** A provider whose fetch and whose evaluation reject. *)
Definition failing_provider : InAppMessagingProvider ascii :=
  {| getProviderName := "failing";
     getCategory := "Notifications";
     getSubCategory := "InAppMessaging";
     getInAppMessages := Throw "fetch failed";
     processInAppMessages messages ev := Throw "evaluation failed" |}.

(** An instance with [push_provider] and [failing_provider] registered, in
    this order, and the flag set. *)
Definition push_and_failing : World ascii MemoryStorage :=
  set_pluggables [push_provider; failing_provider] push_cached.

(** A second provider that rejects, with another error. *)
Definition unreachable_provider : InAppMessagingProvider ascii :=
  {| getProviderName := "unreachable";
     getCategory := "Notifications";
     getSubCategory := "InAppMessaging";
     getInAppMessages := Throw "unreachable";
     processInAppMessages messages ev := Throw "unreachable" |}.

Definition two_failing : World ascii MemoryStorage :=
  set_pluggables [failing_provider; unreachable_provider] push_cached.

(** An event loop in which the promise created last settles first. *)
Definition last_first : Timing :=
  {| settle_order := fun A l => rev l;
     settle_order_permutation := fun A l => symmetry (Permutation_rev l) |}.

(** * Properties *)

Section Properties.

Context {Message Store : Type}.
Context `{!JSON Message} `{!StorageCapability Store} {timing : Timing}.
Context (AWSPinpointProvider : InAppMessagingProvider Message).

Abbreviation Provider' := (InAppMessagingProvider Message).
Abbreviation World' := (World Message Store).
Abbreviation M' := (M Message Store).
Abbreviation Effect' := (Effect Message).

Abbreviation total := (total (Message := Message) (Store := Store)).
Abbreviation silent := (silent (Message := Message) (Store := Store)).
Abbreviation preserves := (preserves (Message := Message) (Store := Store)).
Abbreviation valid_registry := (valid_registry (Message := Message) (Store := Store)).
Abbreviation synced_quiet := (synced_quiet (Message := Message) (Store := Store)).

Implicit Types (w : World') (p : Provider') (key : string) (t : list Effect').

(** ** Reasoning rules for the monad *)


Lemma bind_unfold {A B} (m : M' A) (f : A -> M' B) w :
  bind m f w =
  match m w with
  | (Ok a, w1, t1) => (result_of (f a w1), world_of (f a w1), t1 ++ effects_of (f a w1))
  | (Throw err, w1, t1) => (Throw err, w1, t1)
  end.
Proof.
  unfold bind, result_of, world_of, effects_of.
  destruct (m w) as [[[a|err] w1] t1]; [|done].
  by destruct (f a w1) as [[r w2] t2].
Qed.

Lemma try_catch_unfold {A} (m : M' A) (k : string -> M' A) w :
  try_catch m k w =
  match m w with
  | (Ok a, w1, t1) => (Ok a, w1, t1)
  | (Throw err, w1, t1) =>
      (result_of (k err w1), world_of (k err w1), t1 ++ effects_of (k err w1))
  end.
Proof.
  unfold try_catch, result_of, world_of, effects_of.
  destruct (m w) as [[[a|err] w1] t1]; [done|].
  by destruct (k err w1) as [[r w2] t2].
Qed.

Lemma world_of_bind {A B} (m : M' A) (f : A -> M' B) w :
  world_of (bind m f w) =
  match m w with
  | (Ok a, w1, _) => world_of (f a w1)
  | (Throw _, w1, _) => w1
  end.
Proof. rewrite bind_unfold. by destruct (m w) as [[[a|err] w1] t1]. Qed.

Lemma effects_of_bind {A B} (m : M' A) (f : A -> M' B) w :
  effects_of (bind m f w) =
  match m w with
  | (Ok a, w1, t1) => t1 ++ effects_of (f a w1)
  | (Throw _, _, t1) => t1
  end.
Proof. rewrite bind_unfold. by destruct (m w) as [[[a|err] w1] t1]. Qed.

Lemma result_of_bind {A B} (m : M' A) (f : A -> M' B) w :
  result_of (bind m f w) =
  match m w with
  | (Ok a, w1, _) => result_of (f a w1)
  | (Throw err, _, _) => Throw err
  end.
Proof. rewrite bind_unfold. by destruct (m w) as [[[a|err] w1] t1]. Qed.

Lemma triple_eta {A} (x : outcome A * World' * list Effect') :
  x = (result_of x, world_of x, effects_of x).
Proof. by destruct x as [[??]?]. Qed.

Lemma bind_gets {A B} (g : World' -> A) (k : A -> M' B) w :
  bind (gets g) k w = k (g w) w.
Proof. rewrite bind_unfold. symmetry. apply triple_eta. Qed.

Lemma bind_modify {B} (g : World' -> World') (k : unit -> M' B) w :
  bind (modify g) k w = k tt (g w).
Proof. rewrite bind_unfold. symmetry. apply triple_eta. Qed.

Lemma bind_ret {A B} (a : A) (k : A -> M' B) w : bind (ret a) k w = k a w.
Proof. rewrite bind_unfold. symmetry. apply triple_eta. Qed.

Lemma bind_emit {B} (e : Effect') (k : unit -> M' B) w :
  bind (emit e) k w = (result_of (k tt w), world_of (k tt w), e :: effects_of (k tt w)).
Proof. by rewrite bind_unfold. Qed.

Section Rules.
Context {X : Type} (f : World' -> X) (sel : Effect' -> bool).

Lemma total_ret {A} (a : A) : total (ret a).
Proof. done. Qed.

Lemma total_gets {A} (g : World' -> A) : total (gets g).
Proof. done. Qed.

Lemma total_modify g : total (modify g).
Proof. done. Qed.

Lemma total_emit e : total (emit e).
Proof. done. Qed.

Lemma total_bind {A B} (m : M' A) (k : A -> M' B) :
  total m -> (forall a, total (k a)) -> total (bind m k).
Proof.
  intros Hm Hk w. rewrite bind_unfold. specialize (Hm w).
  destruct (m w) as [[[a|err] w1] t1]; [apply Hk | done].
Qed.

Lemma total_try_catch {A} (m : M' A) (k : string -> M' A) :
  (forall err, total (k err)) -> total (try_catch m k).
Proof.
  intros Hk w. rewrite try_catch_unfold.
  destruct (m w) as [[[a|err] w1] t1]; [done | apply Hk].
Qed.

Lemma total_fmapM {A B} (g : A -> B) (m : M' A) : total m -> total (fmapM g m).
Proof. intros Hm. apply total_bind; [done | intros; apply total_ret]. Qed.

Lemma total_mapM {A B} (k : A -> M' B) (xs : list A) :
  (forall x, total (k x)) -> total (mapM k xs).
Proof.
  intros Hk. induction xs as [|x xs IH]; simpl; [apply total_ret|].
  apply total_bind; [done|]. intros y.
  apply total_bind; [done|]. intros ys. apply total_ret.
Qed.

Lemma keeps_ret {A} (a : A) : keeps f (ret a).
Proof. done. Qed.

Lemma keeps_throw {A} err : keeps f (throw (A := A) err).
Proof. done. Qed.

Lemma keeps_gets {A} (g : World' -> A) : keeps f (gets g).
Proof. done. Qed.

Lemma keeps_emit e : keeps f (emit e).
Proof. done. Qed.

Lemma keeps_lift {A} (r : outcome A) : keeps f (lift r).
Proof. done. Qed.

Lemma keeps_modify g : (forall w, f (g w) = f w) -> keeps f (modify g).
Proof. intros Hg w. apply Hg. Qed.

Lemma keeps_bind {A B} (m : M' A) (k : A -> M' B) :
  keeps f m -> (forall a, keeps f (k a)) -> keeps f (bind m k).
Proof.
  intros Hm Hk w. rewrite bind_unfold. specialize (Hm w).
  destruct (m w) as [[[a|err] w1] t1]; simpl in *; [|done].
  unfold world_of in *; simpl in *. by rewrite <- Hm, <- (Hk a w1).
Qed.

Lemma keeps_try_catch {A} (m : M' A) (k : string -> M' A) :
  keeps f m -> (forall err, keeps f (k err)) -> keeps f (try_catch m k).
Proof.
  intros Hm Hk w. rewrite try_catch_unfold. specialize (Hm w).
  destruct (m w) as [[[a|err] w1] t1]; simpl in *; [done|].
  unfold world_of in *; simpl in *. by rewrite <- Hm, <- (Hk err w1).
Qed.

Lemma keeps_fmapM {A B} (g : A -> B) (m : M' A) : keeps f m -> keeps f (fmapM g m).
Proof. intros Hm. apply keeps_bind; [done | intros; apply keeps_ret]. Qed.

Lemma keeps_mapM {A B} (k : A -> M' B) (xs : list A) :
  (forall x, keeps f (k x)) -> keeps f (mapM k xs).
Proof.
  intros Hk. induction xs as [|x xs IH]; simpl; [apply keeps_ret|].
  apply keeps_bind; [done|]. intros y.
  apply keeps_bind; [done|]. intros ys. apply keeps_ret.
Qed.

Lemma silent_ret {A} (a : A) : silent sel (ret a).
Proof. done. Qed.

Lemma silent_throw {A} err : silent sel (throw (A := A) err).
Proof. done. Qed.

Lemma silent_gets {A} (g : World' -> A) : silent sel (gets g).
Proof. done. Qed.

Lemma silent_modify g : silent sel (modify g).
Proof. done. Qed.

Lemma silent_lift {A} (r : outcome A) : silent sel (lift r).
Proof. done. Qed.

Lemma silent_emit e : sel e = false -> silent sel (emit e).
Proof. intros He w. simpl. by rewrite He. Qed.

Lemma silent_bind {A B} (m : M' A) (k : A -> M' B) :
  silent sel m -> (forall a, silent sel (k a)) -> silent sel (bind m k).
Proof.
  intros Hm Hk w. rewrite bind_unfold. specialize (Hm w).
  destruct (m w) as [[[a|err] w1] t1]; simpl in *; [|done].
  unfold effects_of in *; simpl in *.
  rewrite List.filter_app, Hm. apply (Hk a w1).
Qed.

Lemma silent_try_catch {A} (m : M' A) (k : string -> M' A) :
  silent sel m -> (forall err, silent sel (k err)) -> silent sel (try_catch m k).
Proof.
  intros Hm Hk w. rewrite try_catch_unfold. specialize (Hm w).
  destruct (m w) as [[[a|err] w1] t1]; simpl in *; [done|].
  unfold effects_of in *; simpl in *.
  rewrite List.filter_app, Hm. apply (Hk err w1).
Qed.

Lemma silent_fmapM {A B} (g : A -> B) (m : M' A) : silent sel m -> silent sel (fmapM g m).
Proof. intros Hm. apply silent_bind; [done | intros; apply silent_ret]. Qed.

Lemma silent_mapM {A B} (k : A -> M' B) (xs : list A) :
  (forall x, silent sel (k x)) -> silent sel (mapM k xs).
Proof.
  intros Hk. induction xs as [|x xs IH]; simpl; [apply silent_ret|].
  apply silent_bind; [done|]. intros y.
  apply silent_bind; [done|]. intros ys. apply silent_ret.
Qed.
End Rules.

(** ** The cache operations, run alone *)

Ltac rules :=
  repeat
    (first
      [ progress intros
      | solve [auto]
      | progress cbv zeta
      | apply total_ret | apply total_gets | apply total_modify | apply total_emit
      | apply total_bind | apply total_try_catch | apply total_fmapM | apply total_mapM
      | apply keeps_ret | apply keeps_throw | apply keeps_gets | apply keeps_emit
      | apply keeps_lift | apply keeps_bind | apply keeps_try_catch
      | apply keeps_fmapM | apply keeps_mapM
      | apply keeps_modify; solve [auto]
      | apply silent_emit; reflexivity
      | apply silent_ret | apply silent_throw | apply silent_gets | apply silent_modify
      | apply silent_lift | apply silent_bind | apply silent_try_catch
      | apply silent_fmapM | apply silent_mapM
      | match goal with
        | |- total (match ?x with _ => _ end) => destruct x
        | |- keeps _ (match ?x with _ => _ end) => destruct x
        | |- silent _ (match ?x with _ => _ end) => destruct x
        | |- total (if ?x then _ else _) => destruct x
        | |- keeps _ (if ?x then _ else _) => destruct x
        | |- silent _ (if ?x then _ else _) => destruct x
        end ]).

Lemma syncStorage_call_total : total syncStorage_call.
Proof. unfold syncStorage_call, log_error. rules. Qed.

Lemma syncStorage_resume_total a : total (syncStorage_resume a).
Proof. unfold syncStorage_resume, log_error. rules. Qed.

#[local] Hint Resolve syncStorage_call_total syncStorage_resume_total : core.

Lemma syncStorage_total : total syncStorage.
Proof. unfold syncStorage. rules. Qed.

#[local] Hint Resolve syncStorage_total : core.

Lemma syncIfNeeded_total : total syncIfNeeded.
Proof. unfold syncIfNeeded. rules. Qed.

Lemma getMessages_begin_total key : total (getMessages_begin key).
Proof. unfold getMessages_begin, getMessages_catch, log_error. rules. Qed.

Lemma getMessages_resume_total key s : total (getMessages_resume key s).
Proof. unfold getMessages_resume, getMessages_catch, log_error. rules. Qed.

#[local] Hint Resolve getMessages_begin_total getMessages_resume_total : core.

Lemma getMessages_total key : total (getMessages key).
Proof. unfold getMessages. rules. Qed.

Lemma setMessages_begin_total key messages : total (setMessages_begin key messages).
Proof. unfold setMessages_begin, setMessages_catch, log_error. rules. Qed.

Lemma setMessages_resume_total key messages s : total (setMessages_resume key messages s).
Proof. unfold setMessages_resume, setMessages_catch, log_error. rules. Qed.

#[local] Hint Resolve setMessages_begin_total setMessages_resume_total : core.

Lemma setMessages_total key messages : total (setMessages key messages).
Proof. unfold setMessages. rules. Qed.

Lemma removeMessages_begin_total key : total (removeMessages_begin key).
Proof. unfold removeMessages_begin, removeMessages_catch, log_error. rules. Qed.

Lemma removeMessages_resume_total key s : total (removeMessages_resume key s).
Proof. unfold removeMessages_resume, removeMessages_catch, log_error. rules. Qed.

#[local] Hint Resolve removeMessages_begin_total removeMessages_resume_total : core.

Lemma removeMessages_total key : total (removeMessages key).
Proof. unfold removeMessages. rules. Qed.

(** Run alone, a cache operation is the sync step followed by the guarded
    storage access. *)

Ltac run_call w a w1 t1 :=
  let Hc := fresh "Hcall" in
  pose proof (syncStorage_call_total w) as Hc;
  destruct (syncStorage_call w) as [[[a|?] w1] t1]; [clear Hc | done].

Ltac run_resume a w1 w2 t2 :=
  let Hr := fresh "Hresume" in
  pose proof (syncStorage_resume_total a w1) as Hr;
  destruct (syncStorage_resume a w1) as [[[[]|?] w2] t2]; [clear Hr | done].

Ltac tidy := simpl; rewrite ?app_nil_r, <- ?app_assoc; try done.

Lemma getMessages_alone key w :
  getMessages key w =
  (syncIfNeeded >> guarded_read key) w.
Proof.
  unfold guarded_read, getMessages, syncIfNeeded, getMessages_begin, getMessages_resume, syncStorage.
  unfold bind at 1 2 3 4 5 6. unfold try_catch at 1 3. unfold gets, fmapM, ret.
  simpl. destruct (storageSynced (this w)); simpl.
  - unfold bind, try_catch.
    destruct (getMessages_rest key w) as [[[r|err] w1] t1]; tidy.
  - unfold bind. run_call w a w1 t1. simpl.
    unfold try_catch, bind. run_resume a w1 w2 t2.
    destruct (getMessages_rest key w2) as [[[r'|err] w3] t3]; tidy.
Qed.

Lemma setMessages_alone key ms w :
  setMessages key (Some ms) w = (syncIfNeeded >> guarded_write key ms) w.
Proof.
  unfold guarded_write, setMessages, syncIfNeeded, setMessages_begin,
    setMessages_resume, syncStorage.
  unfold bind at 1 2 3 4 5 6. unfold try_catch at 1 3. unfold gets, fmapM, ret.
  simpl. destruct (storageSynced (this w)); simpl.
  - unfold bind, try_catch.
    destruct (setMessages_rest key ms w) as [[[[]|err] w1] t1]; tidy.
  - unfold bind. run_call w a w1 t1. simpl.
    unfold try_catch, bind. run_resume a w1 w2 t2.
    destruct (setMessages_rest key ms w2) as [[[[]|err] w3] t3]; tidy.
Qed.

Lemma removeMessages_alone key w :
  removeMessages key w = (syncIfNeeded >> guarded_remove key) w.
Proof.
  unfold guarded_remove, removeMessages, syncIfNeeded, removeMessages_begin,
    removeMessages_resume, syncStorage.
  unfold bind at 1 2 3 4 5 6. unfold try_catch at 1 3. unfold gets, fmapM, ret.
  simpl. destruct (storageSynced (this w)); simpl.
  - unfold bind, try_catch.
    destruct (removeMessages_rest key w) as [[[[]|err] w1] t1]; tidy.
  - unfold bind. run_call w a w1 t1. simpl.
    unfold try_catch, bind. run_resume a w1 w2 t2.
    destruct (removeMessages_rest key w2) as [[[[]|err] w3] t3]; tidy.
Qed.

(** ** The sync step on a storage capability *)

Lemma syncStorage_without_sync w h :
  storage_of w = VStorage h -> sync (stores w h) = None ->
  syncStorage w = (Ok tt, set_storageSynced true w, []).
Proof.
  intros Hst Hs. unfold syncStorage, syncStorage_call, bind, try_catch, gets. simpl.
  rewrite Hst. simpl. by rewrite Hs.
Qed.

Lemma syncStorage_resolved w h s' :
  storage_of w = VStorage h -> sync (stores w h) = Some (Ok tt, s') ->
  syncStorage w = (Ok tt, set_storageSynced true (set_store h s' w), [EStorageSync h]).
Proof.
  intros Hst Hs. unfold syncStorage, syncStorage_call, bind, try_catch, gets. simpl.
  rewrite Hst. simpl. rewrite Hs. unfold storage_sync. by rewrite Hs.
Qed.

Lemma syncStorage_rejected w h err s' :
  storage_of w = VStorage h -> sync (stores w h) = Some (Throw err, s') ->
  syncStorage w =
    (Ok tt, set_store h s' w, [EStorageSync h; ELogError "Failed to sync storage"]).
Proof.
  intros Hst Hs. unfold syncStorage, syncStorage_call, bind, try_catch, gets. simpl.
  rewrite Hst. simpl. rewrite Hs. unfold storage_sync. by rewrite Hs.
Qed.

Lemma syncIfNeeded_synced w :
  storageSynced (this w) = true -> syncIfNeeded w = (Ok tt, w, []).
Proof. intros Hs. unfold syncIfNeeded, bind, gets. simpl. by rewrite Hs. Qed.

Lemma syncIfNeeded_unsynced w :
  storageSynced (this w) = false -> syncIfNeeded w = syncStorage w.
Proof.
  intros Hs. unfold syncIfNeeded. rewrite bind_unfold. simpl. rewrite Hs. simpl.
  symmetry. apply triple_eta.
Qed.

(** ** What the storage-level code leaves alone

    Anything that does not look at the storage objects or at the
    [storageSynced] flag is untouched by the cache and by the pipeline. *)

Section StorageFrame.
Context {X : Type} (f : World' -> X).
Hypothesis f_store : forall h s w, f (set_store h s w) = f w.
Hypothesis f_synced : forall b w, f (set_storageSynced b w) = f w.

Lemma keeps_storage_getItem storage key : keeps f (storage_getItem storage key).
Proof.
  intros w. destruct storage; try done. unfold storage_getItem, world_of.
  destruct (getItem key (stores w h)) as [r s']. apply f_store.
Qed.

Lemma keeps_storage_setItem storage key value : keeps f (storage_setItem storage key value).
Proof.
  destruct storage; simpl; try solve [rules].
  apply keeps_bind; [apply keeps_lift|]. intros v w. unfold world_of.
  destruct (setItem key v (stores w h)) as [r s']. apply f_store.
Qed.

Lemma keeps_storage_removeItem storage key : keeps f (storage_removeItem storage key).
Proof.
  intros w. destruct storage; try done. unfold storage_removeItem, world_of.
  destruct (removeItem key (stores w h)) as [r s']. apply f_store.
Qed.

Lemma keeps_storage_sync h : keeps f (storage_sync h).
Proof.
  intros w. unfold storage_sync, world_of.
  destruct (sync (stores w h)) as [[r s']|]; [apply f_store | done].
Qed.

Lemma keeps_typeof_sync storage : keeps f (typeof_sync_is_function storage).
Proof. destruct storage; simpl; rules. Qed.

Hint Resolve keeps_storage_getItem keeps_storage_setItem keeps_storage_removeItem
  keeps_storage_sync keeps_typeof_sync : core.

Lemma keeps_syncStorage_call : keeps f syncStorage_call.
Proof. unfold syncStorage_call, log_error. rules. Qed.

Lemma keeps_syncStorage_resume a : keeps f (syncStorage_resume a).
Proof. unfold syncStorage_resume, log_error. rules. Qed.

Hint Resolve keeps_syncStorage_call keeps_syncStorage_resume : core.

Lemma keeps_syncStorage : keeps f syncStorage.
Proof. unfold syncStorage. rules. Qed.

Lemma keeps_syncIfNeeded : keeps f syncIfNeeded.
Proof.
  unfold syncIfNeeded. apply keeps_bind; [apply keeps_gets|].
  intros []; simpl; [apply keeps_ret | apply keeps_syncStorage].
Qed.

Lemma keeps_getMessages_begin key : keeps f (getMessages_begin key).
Proof.
  unfold getMessages_begin, getMessages_rest, getMessages_catch, log_error. rules.
Qed.

Lemma keeps_getMessages_resume key s : keeps f (getMessages_resume key s).
Proof.
  unfold getMessages_resume, getMessages_rest, getMessages_catch, log_error. rules.
Qed.

Lemma keeps_setMessages_begin key messages : keeps f (setMessages_begin key messages).
Proof.
  unfold setMessages_begin, setMessages_rest, setMessages_catch, log_error. rules.
Qed.

Lemma keeps_setMessages_resume key messages s :
  keeps f (setMessages_resume key messages s).
Proof.
  unfold setMessages_resume, setMessages_rest, setMessages_catch, log_error. rules.
Qed.

Lemma keeps_removeMessages_begin key : keeps f (removeMessages_begin key).
Proof.
  unfold removeMessages_begin, removeMessages_rest, removeMessages_catch, log_error.
  rules.
Qed.

Lemma keeps_removeMessages_resume key s : keeps f (removeMessages_resume key s).
Proof.
  unfold removeMessages_resume, removeMessages_rest, removeMessages_catch, log_error.
  rules.
Qed.

Hint Resolve keeps_getMessages_begin keeps_getMessages_resume
  keeps_setMessages_begin keeps_setMessages_resume
  keeps_removeMessages_begin keeps_removeMessages_resume : core.

Lemma keeps_syncMessages : keeps f syncMessages.
Proof. unfold syncMessages. rules. Qed.

Lemma keeps_clearMessages : keeps f clearMessages.
Proof. unfold clearMessages, log_debug. rules. Qed.

Lemma keeps_begin_reads ps : keeps f (begin_reads ps).
Proof. unfold begin_reads. rules. Qed.

Lemma keeps_resume_reads begun : keeps f (resume_reads begun).
Proof. unfold resume_reads. rules. Qed.

Hint Resolve keeps_begin_reads keeps_resume_reads : core.

Lemma keeps_dispatchEvent ev : keeps f (dispatchEvent ev).
Proof. unfold dispatchEvent, process_all. rules. Qed.

Hint Resolve keeps_dispatchEvent : core.

Lemma keeps_analyticsListener payload : keeps f (analyticsListener payload).
Proof. unfold analyticsListener. rules. Qed.

Lemma keeps_cache_access o : keeps f (cache_access o).
Proof.
  destruct o; simpl;
    unfold forget, guarded_read, guarded_write, guarded_remove, getMessages_rest,
      setMessages_rest, removeMessages_rest, getMessages_catch, setMessages_catch,
      removeMessages_catch, log_error; rules.
Qed.

Lemma keeps_getPluggable n : keeps f (getPluggable n).
Proof. unfold getPluggable, log_debug. rules. Qed.
End StorageFrame.

#[local] Hint Resolve keeps_getPluggable keeps_syncMessages keeps_clearMessages
  keeps_dispatchEvent keeps_analyticsListener keeps_begin_reads keeps_resume_reads : core.

(** ** Registry and configuration *)


Lemma preserves_bind {A B} (I : World' -> Prop) (m : M' A) (k : A -> M' B) :
  preserves I m -> (forall a, preserves I (k a)) -> preserves I (bind m k).
Proof.
  intros Hm Hk w Hw. rewrite bind_unfold. specialize (Hm w Hw).
  destruct (m w) as [[[a|err] w1] t1]; [|done].
  apply (Hk a w1 Hm).
Qed.

Lemma category_ok_spec p :
  category_ok p = true <->
  getCategory p = "Notifications" /\ getSubCategory p = "InAppMessaging".
Proof.
  unfold category_ok. rewrite andb_true_iff, !String.eqb_eq. tauto.
Qed.

Lemma addPluggable_accepts p w :
  category_ok p = true ->
  addPluggable (Some p) w =
    (Ok tt, set_pluggables (pluggables (this w) ++ [p]) w,
     [EProviderConfigure p (get_prop (config (this w)) (getProviderName p))]).
Proof. intros Hp. unfold addPluggable. by rewrite Hp. Qed.

Lemma addPluggable_rejects p w :
  category_ok p = false -> addPluggable (Some p) w = (Ok tt, w, []).
Proof. intros Hp. unfold addPluggable. by rewrite Hp. Qed.

Lemma addPluggable_total pluggable : total (addPluggable pluggable).
Proof. unfold addPluggable. rules. Qed.

Lemma addPluggable_valid pluggable : preserves valid_registry (addPluggable pluggable).
Proof.
  intros w Hw. destruct pluggable as [p|]; [|done].
  destruct (category_ok p) eqn:Hp.
  - rewrite (addPluggable_accepts _ _ Hp). unfold valid_registry, world_of. simpl.
    apply Forall_app. split; [done|]. apply Forall_singleton.
    by apply category_ok_spec.
  - by rewrite (addPluggable_rejects _ _ Hp).
Qed.

Lemma addPluggable_keeps_config pluggable :
  keeps (fun w => config (this w)) (addPluggable pluggable).
Proof. unfold addPluggable. rules. Qed.

Lemma removePluggable_valid n : preserves valid_registry (removePluggable n).
Proof.
  intros w Hw. unfold removePluggable, bind, gets, world_of. simpl.
  destruct (findIndex (name_is n) (pluggables (this w))) as [i|]; simpl; [|done].
  unfold valid_registry. simpl. by apply Forall_delete.
Qed.

Lemma removePluggable_keeps_config n :
  keeps (fun w => config (this w)) (removePluggable n).
Proof. unfold removePluggable, log_debug. rules. Qed.

Lemma keeps_spread {X} (f : World' -> X) v : keeps f (spread v).
Proof. destruct v; simpl; rules. Qed.

Lemma keeps_merged_config {X} (f : World' -> X) p : keeps f (merged_config p).
Proof. unfold merged_config. rules. apply keeps_spread. Qed.

Lemma total_spread v : total (spread v).
Proof. destruct v; simpl; rules. Qed.

Lemma total_merged_config p : total (merged_config p).
Proof. unfold merged_config. rules. apply total_spread. Qed.

#[local] Hint Resolve keeps_merged_config total_merged_config addPluggable_total : core.

Lemma configure_total arg : total (configure AWSPinpointProvider arg).
Proof. unfold configure, log_debug. rules. Qed.

Lemma keeps_pluggables_valid {A} (m : M' A) :
  keeps (fun w => pluggables (this w)) m -> preserves valid_registry m.
Proof. intros Hm w Hw. unfold valid_registry. by rewrite (Hm w). Qed.

Create HintDb registry.
#[local] Hint Resolve addPluggable_valid removePluggable_valid : registry.

Ltac valid_rules :=
  repeat
    (first
      [ progress intros
      | solve [auto with registry]
      | apply keeps_pluggables_valid; solve [rules]
      | apply preserves_bind
      | match goal with
        | |- preserves _ (if ?x then _ else _) => destruct x
        end ]).

Lemma configure_valid arg : preserves valid_registry (configure AWSPinpointProvider arg).
Proof. unfold configure, log_debug. valid_rules. Qed.

#[local] Hint Resolve configure_valid : registry.

Lemma call_valid c : preserves valid_registry (call AWSPinpointProvider c).
Proof. destruct c; simpl; unfold forget, fmapM; valid_rules. Qed.

Lemma reachable_after h0 sigma calls :
  reachable AWSPinpointProvider h0 sigma
    (after AWSPinpointProvider calls (constructor h0 sigma)).
Proof.
  unfold after. induction calls as [|c calls IH] using rev_ind.
  - constructor.
  - rewrite foldl_app. simpl. by constructor.
Qed.

Lemma reachable_valid h0 sigma w :
  reachable AWSPinpointProvider h0 sigma w -> valid_registry w.
Proof.
  induction 1 as [|w c Hw IH].
  - constructor.
  - by apply call_valid.
Qed.

Lemma configure_config arg w :
  config (this (world_of (configure AWSPinpointProvider arg w))) =
  delete "listenForAnalyticsEvents" (default ∅ arg) ∪ config (this w).
Proof.
  unfold configure. rewrite world_of_bind. unfold gets at 1. cbv beta iota.
  rewrite world_of_bind. unfold modify at 1. cbv beta iota.
  match goal with
  | |- config (this (world_of (?m ?w0))) = _ =>
      assert (keeps (fun w => config (this w)) m) as Hm
        by (unfold log_debug; rules; apply addPluggable_keeps_config);
      apply (Hm w0)
  end.
Qed.

Lemma configure_returns_config arg w :
  result_of (configure AWSPinpointProvider arg w) =
  Ok (config (this (world_of (configure AWSPinpointProvider arg w)))).
Proof.
  unfold configure.
  repeat (rewrite bind_unfold;
          match goal with
          | |- context [match ?m ?w0 with _ => _ end] =>
              let H := fresh in
              assert (total m) as H by (unfold log_debug; rules);
              specialize (H w0);
              destruct (m w0) as [[[?|?] ?] ?]; [clear H | done]
          end; simpl).
  done.
Qed.

Lemma call_config c w :
  config (this (world_of (call AWSPinpointProvider c w))) =
  match c with
  | CallConfigure arg =>
      delete "listenForAnalyticsEvents" (default ∅ arg) ∪ config (this w)
  | _ => config (this w)
  end.
Proof.
  destruct c; simpl;
    try (match goal with
         | |- config (this (world_of (?m ?w0))) = _ =>
             assert (keeps (fun w => config (this w)) m) as Hm
               by (unfold forget, notifyMessageDisplayed, notifyMessageDismissed,
                     notifyMessageActionTaken; rules;
                   first [ apply addPluggable_keeps_config
                         | apply removePluggable_keeps_config ]);
             apply (Hm w0)
         end).
  rewrite <- configure_config. unfold forget, fmapM. rewrite bind_unfold.
  pose proof (configure_total arg w) as Ht.
  by destruct (configure AWSPinpointProvider arg w) as [[[?|?] ?] ?].
Qed.

Lemma after_snoc calls c w :
  after AWSPinpointProvider (calls ++ [c]) w =
  world_of (call AWSPinpointProvider c (after AWSPinpointProvider calls w)).
Proof. unfold after. by rewrite foldl_app. Qed.

Lemma after_never_stores_listen_option h0 sigma calls :
  config (this (after AWSPinpointProvider calls (constructor h0 sigma)))
    !! "listenForAnalyticsEvents" = None.
Proof.
  induction calls as [|c calls IH] using rev_ind; [done|].
  rewrite after_snoc, call_config. destruct c; try done.
  apply lookup_union_None. split; [apply lookup_delete_eq | done].
Qed.

Lemma after_keeps_storage h0 sigma calls :
  Forall (fun c => provides_storage c = false) calls ->
  config (this (after AWSPinpointProvider calls (constructor h0 sigma)))
    !! "storage" = Some (VStorage h0).
Proof.
  induction calls as [|c calls IH] using rev_ind; intros Hc; [done|].
  apply Forall_app in Hc as [Hcalls Hlast%Forall_inv].
  rewrite after_snoc, call_config. destruct c; try by apply IH.
  rewrite lookup_union_r; [by apply IH|].
  rewrite lookup_delete_ne by done.
  destruct arg as [a|]; simpl in *; [|done].
  apply bool_decide_eq_false in Hlast. by apply eq_None_not_Some.
Qed.

(** ** The dispatch pipeline *)

Section StorageSilence.
Context (sel : Effect' -> bool).
Hypothesis sel_sync : forall h, sel (EStorageSync h) = false.
Hypothesis sel_get : forall h k, sel (EGetItem h k) = false.
Hypothesis sel_set : forall h k v, sel (ESetItem h k v) = false.
Hypothesis sel_remove : forall h k, sel (ERemoveItem h k) = false.
Hypothesis sel_error : forall msg, sel (ELogError msg) = false.

Lemma silent_storage_getItem storage key : silent sel (storage_getItem storage key).
Proof.
  intros w. destruct storage; try done. unfold storage_getItem, effects_of.
  destruct (getItem key (stores w h)) as [r s']. simpl. by rewrite sel_get.
Qed.

Lemma silent_storage_sync h : silent sel (storage_sync h).
Proof.
  intros w. unfold storage_sync, effects_of.
  destruct (sync (stores w h)) as [[r s']|]; [|done]. simpl. by rewrite sel_sync.
Qed.

Lemma silent_typeof_sync storage : silent sel (typeof_sync_is_function storage).
Proof. destruct storage; simpl; rules. Qed.

Lemma silent_log_error msg : silent sel (log_error msg).
Proof. intros w. simpl. by rewrite sel_error. Qed.

Hint Resolve silent_storage_getItem silent_storage_sync silent_typeof_sync
  silent_log_error : core.

Lemma silent_syncStorage_call : silent sel syncStorage_call.
Proof. unfold syncStorage_call. rules. Qed.

Lemma silent_syncStorage_resume a : silent sel (syncStorage_resume a).
Proof. unfold syncStorage_resume. rules. Qed.

Hint Resolve silent_syncStorage_call silent_syncStorage_resume : core.

Lemma silent_getMessages_begin key : silent sel (getMessages_begin key).
Proof. unfold getMessages_begin, getMessages_rest, getMessages_catch. rules. Qed.

Lemma silent_getMessages_resume key s : silent sel (getMessages_resume key s).
Proof. unfold getMessages_resume, getMessages_rest, getMessages_catch. rules. Qed.

Hint Resolve silent_getMessages_begin silent_getMessages_resume : core.

Lemma silent_begin_reads ps : silent sel (begin_reads ps).
Proof. unfold begin_reads. rules. Qed.

Lemma silent_resume_reads begun : silent sel (resume_reads begun).
Proof. unfold resume_reads. rules. Qed.

Lemma silent_syncIfNeeded : silent sel syncIfNeeded.
Proof. unfold syncIfNeeded, syncStorage. rules. Qed.

Lemma silent_storage_setItem storage key value :
  silent sel (storage_setItem storage key value).
Proof.
  destruct storage; simpl; try solve [rules].
  apply silent_bind; [apply silent_lift|]. intros v w. unfold effects_of.
  destruct (setItem key v (stores w h)) as [r s']. simpl. by rewrite sel_set.
Qed.

Lemma silent_storage_removeItem storage key :
  silent sel (storage_removeItem storage key).
Proof.
  intros w. destruct storage; try done. unfold storage_removeItem, effects_of.
  destruct (removeItem key (stores w h)) as [r s']. simpl. by rewrite sel_remove.
Qed.

Hint Resolve silent_storage_setItem silent_storage_removeItem : core.

Lemma silent_cache_access o : silent sel (cache_access o).
Proof.
  destruct o; simpl;
    unfold forget, guarded_read, guarded_write, guarded_remove, getMessages_rest,
      setMessages_rest, removeMessages_rest, getMessages_catch, setMessages_catch,
      removeMessages_catch; rules.
Qed.
End StorageSilence.

Lemma mapM_fst {A B C} (k : A -> M' (C * B)) (g : A -> C) (xs : list A) :
  (forall x w y, result_of (k x w) = Ok y -> y.1 = g x) ->
  forall w ys, result_of (mapM k xs w) = Ok ys -> map fst ys = map g xs.
Proof.
  intros Hk. induction xs as [|x xs IH]; intros w ys; simpl.
  - by intros [= <-].
  - rewrite bind_unfold. pose proof (Hk x w) as Hx.
    destruct (k x w) as [[[y|err] w1] t1]; [|done].
    simpl. rewrite bind_unfold. pose proof (IH w1) as Hxs.
    destruct (mapM k xs w1) as [[[ys'|err] w2] t2]; [|done].
    simpl. intros [= <-]. simpl. f_equal; [by apply Hx | by apply Hxs].
Qed.

Lemma begin_reads_total ps : total (begin_reads ps).
Proof. unfold begin_reads. rules. Qed.

Lemma resume_reads_total begun : total (resume_reads begun).
Proof. unfold resume_reads. rules. Qed.

Lemma begin_reads_providers ps w begun :
  result_of (begin_reads ps w) = Ok begun -> map fst begun = ps.
Proof.
  unfold begin_reads. intros Hb.
  apply (mapM_fst _ id) in Hb; [by rewrite Hb, map_id|].
  intros p w' [p' s]. rewrite bind_unfold.
  destruct (getMessages_begin _ w') as [[[s'|?] ?] ?]; [|done].
  by intros [= <- _].
Qed.

Lemma resume_reads_providers begun w read :
  result_of (resume_reads begun w) = Ok read -> map fst read = map fst begun.
Proof.
  unfold resume_reads. intros Hr.
  apply (mapM_fst _ fst) in Hr; [done|].
  intros [p s] w' [p' ms]. rewrite bind_unfold.
  destruct (getMessages_resume _ s w') as [[[ms'|?] ?] ?]; [|done].
  by intros [= <- _].
Qed.

(** The reads of [dispatchEvent] always resolve, one per registered
    provider, in registry order. *)
Lemma reads_run ps w :
  exists begun w0 t0 read w1 t1,
    begin_reads ps w = (Ok begun, w0, t0)
    /\ resume_reads begun w0 = (Ok read, w1, t1)
    /\ map fst begun = ps
    /\ map fst read = ps.
Proof.
  pose proof (begin_reads_total ps w) as Hb.
  destruct (begin_reads ps w) as [[[begun|err] w0] t0] eqn:Hbegun; [clear Hb | done].
  pose proof (resume_reads_total begun w0) as Hr.
  destruct (resume_reads begun w0) as [[[read|err] w1] t1] eqn:Hread; [clear Hr | done].
  exists begun, w0, t0, read, w1, t1.
  assert (map fst begun = ps) as Hps
    by (apply (begin_reads_providers ps w); by rewrite Hbegun).
  split; [done|]. split; [done|]. split; [done|].
  rewrite <- Hps. apply (resume_reads_providers begun w0). by rewrite Hread.
Qed.

Lemma process_all_run ev read w :
  process_all ev read w =
  (Ok (map (process_result ev) read), w, map (process_call ev) read).
Proof.
  unfold process_all. induction read as [|x read IH]; [done|].
  cbn [mapM]. rewrite bind_unfold.
  change ((emit (process_call ev x) >> ret (process_result ev x)) w)
    with (Ok (process_result ev x), w, [process_call ev x]).
  cbv beta iota. rewrite bind_unfold, IH.
  unfold result_of, world_of, effects_of. simpl. by rewrite app_nil_r.
Qed.

(** ** The order of evaluation and the join *)

Lemma filter_split {A} (f : A -> bool) (l : list A) :
  List.filter (fun x => negb (f x)) l ++ List.filter f l ≡ₚ l.
Proof.
  induction l as [|x l IH]; [done|]. simpl. destruct (f x); simpl.
  - by rewrite <- Permutation_middle, IH.
  - by rewrite IH.
Qed.

Lemma evaluation_order_permutation {X}
    (begun : list (Provider' * Suspended (option (list Message)))) (read : list X) :
  length begun = length read -> evaluation_order begun read ≡ₚ read.
Proof.
  intros Hlen. unfold evaluation_order. cbv zeta.
  rewrite <- map_app, (filter_split (fun b => waited b.1.2)).
  change (map snd (zip begun read)) with ((zip begun read).*2).
  rewrite snd_zip; [done | lia].
Qed.

Lemma first_rejection_permutation {A} (rs rs' : list (outcome A)) err :
  rs ≡ₚ rs' -> first_rejection rs = Some err -> Throw err ∈ rs'.
Proof.
  unfold first_rejection. intros Hp Hhead.
  assert (err ∈ omap rejection rs) as Hin.
  { destruct (omap rejection rs) as [|e l]; [done|]. simpl in Hhead.
    injection Hhead as ->. apply list_elem_of_here. }
  rewrite Hp in Hin. apply list_elem_of_omap in Hin as (r & Hr & Hrej).
  destruct r as [a|e]; [done|]. by injection Hrej as ->.
Qed.

Lemma first_rejection_none {A} (rs rs' : list (outcome A)) :
  rs ≡ₚ rs' -> (first_rejection rs = None <-> forall r, r ∈ rs' -> is_ok r = true).
Proof.
  unfold first_rejection. intros Hp. split.
  - intros Hhead r Hr. destruct r as [a|err]; [done|].
    assert (err ∈ omap rejection rs) as Hin
      by (rewrite Hp; apply list_elem_of_omap; by exists (Throw err)).
    destruct (omap rejection rs); [inversion Hin | by simpl in Hhead].
  - intros Hok. destruct (omap rejection rs) as [|e l] eqn:Hrs; [done|].
    assert (e ∈ omap rejection rs) as Hin by (rewrite Hrs; apply list_elem_of_here).
    rewrite Hp in Hin. apply list_elem_of_omap in Hin as (r & Hr & Hrej).
    specialize (Hok r Hr). by destruct r.
Qed.

Lemma fulfilled_all {A} (results : list A) : omap fulfilled (map Ok results) = results.
Proof. induction results as [|a l IH]; [done|]. simpl. by f_equal. Qed.

(** [dispatchEvent] in terms of its reads. *)
Lemma dispatchEvent_run ev w begun w0 t0 read w1 t1 :
  begin_reads (pluggables (this w)) w = (Ok begun, w0, t0) ->
  resume_reads begun w0 = (Ok read, w1, t1) ->
  dispatchEvent ev w =
  let calls := evaluation_order begun read in
  match Promise_all (map (process_result ev) read)
          (settle_order (map (process_result ev) calls)) with
  | Ok messages =>
      (Ok tt, w1,
       t0 ++ t1 ++ map (process_call ev) calls
          ++ match concat messages with
             | [] => []
             | _ :: _ => [ENotify (PMessages (concat messages)) MESSAGES_RECEIVED]
             end)
  | Throw err => (Throw err, w1, t0 ++ t1 ++ map (process_call ev) calls)
  end.
Proof.
  intros Hbegun Hread. unfold dispatchEvent, bind, gets, lift. cbv beta iota.
  rewrite Hbegun. cbv beta iota. rewrite Hread. cbv beta iota.
  rewrite process_all_run. cbv beta iota zeta.
  destruct (Promise_all _ _) as [messages|err]; [|by rewrite !app_nil_r].
  destruct (concat messages) as [|m l]; simpl; by rewrite ?app_nil_r.
Qed.

(** ** The guarded storage accesses on a storage capability *)

Lemma guarded_read_run key w h :
  storage_of w = VStorage h ->
  guarded_read key w =
  match getItem key (stores w h) with
  | (Throw _, s') =>
      (Ok None, set_store h s' w,
       [EGetItem h key; ELogError "Failed to retrieve in-app messages from storage"])
  | (Ok None, s') => (Ok (Some []), set_store h s' w, [EGetItem h key])
  | (Ok (Some s), s') =>
      if String.eqb s "" then (Ok (Some []), set_store h s' w, [EGetItem h key])
      else
        match JSON_parse s with
        | Ok ms => (Ok (Some ms), set_store h s' w, [EGetItem h key])
        | Throw _ =>
            (Ok None, set_store h s' w,
             [EGetItem h key;
              ELogError "Failed to retrieve in-app messages from storage"])
        end
  end.
Proof.
  intros Hst.
  unfold guarded_read, getMessages_rest, getMessages_catch, try_catch, bind, gets,
    fmapM, lift, ret, log_error, emit.
  rewrite Hst. unfold storage_getItem.
  destruct (getItem key (stores w h)) as [[[s|]|err] s']; try done.
  destruct (String.eqb s ""); [done|].
  by destruct (JSON_parse s).
Qed.

Lemma guarded_read_not_storage key w :
  (forall h, storage_of w <> VStorage h) ->
  guarded_read key w =
  (Ok None, w, [ELogError "Failed to retrieve in-app messages from storage"]).
Proof.
  intros Hst.
  unfold guarded_read, getMessages_rest, getMessages_catch, try_catch, bind, gets,
    fmapM, lift, ret, log_error, emit.
  destruct (storage_of w) eqn:Hs; try done. by destruct (Hst h).
Qed.

Lemma guarded_write_run key ms w h s :
  storage_of w = VStorage h -> JSON_stringify ms = Ok s ->
  guarded_write key ms w =
  match setItem key s (stores w h) with
  | (Ok _, s') => (Ok tt, set_store h s' w, [ESetItem h key s])
  | (Throw _, s') =>
      (Ok tt, set_store h s' w,
       [ESetItem h key s; ELogError "Failed to store in-app messages"])
  end.
Proof.
  intros Hst Hs.
  unfold guarded_write, setMessages_rest, setMessages_catch, try_catch, bind, gets,
    log_error, emit, ret.
  rewrite Hst, Hs. unfold storage_setItem, bind, lift.
  by destruct (setItem key s (stores w h)) as [[[]|err] s'].
Qed.

Lemma syncIfNeeded_storage_of w : storage_of (world_of (syncIfNeeded w)) = storage_of w.
Proof.
  by apply (keeps_syncIfNeeded storage_of).
Qed.

Lemma syncIfNeeded_run w :
  syncIfNeeded w = (Ok tt, world_of (syncIfNeeded w), effects_of (syncIfNeeded w)).
Proof.
  pose proof (syncIfNeeded_total w) as Ht.
  by destruct (syncIfNeeded w) as [[[[]|?] ?] ?].
Qed.

Lemma cache_access_total o : total (cache_access o).
Proof.
  destruct o; simpl;
    unfold forget, guarded_read, guarded_write, guarded_remove, getMessages_catch,
      setMessages_catch, removeMessages_catch, log_error; rules.
Qed.

Lemma cache_op_alone o w : cache_op o w = (syncIfNeeded >> cache_access o) w.
Proof.
  destruct o; simpl.
  - unfold forget, fmapM. rewrite !bind_unfold, getMessages_alone, !bind_unfold.
    rewrite syncIfNeeded_run. cbv beta iota. rewrite bind_unfold.
    destruct (guarded_read key _) as [[[r|err] w2] t2];
      unfold result_of, world_of, effects_of; simpl; by rewrite ?app_nil_r, ?app_assoc.
  - apply setMessages_alone.
  - apply removeMessages_alone.
Qed.

Lemma cache_op_run o w :
  cache_op o w =
  (Ok tt, world_of (cache_access o (world_of (syncIfNeeded w))),
   effects_of (syncIfNeeded w)
     ++ effects_of (cache_access o (world_of (syncIfNeeded w)))).
Proof.
  rewrite cache_op_alone, bind_unfold, syncIfNeeded_run. cbv beta iota.
  pose proof (cache_access_total o (world_of (syncIfNeeded w))) as Ht.
  destruct (cache_access o _) as [[[[]|?] ?] ?]; [|done].
  by rewrite <- syncIfNeeded_run.
Qed.

Lemma cache_op_sync_calls o w :
  sync_calls (effects_of (cache_op o w)) = sync_calls (effects_of (syncIfNeeded w)).
Proof.
  rewrite cache_op_run. unfold sync_calls, effects_of at 1. simpl.
  rewrite List.filter_app, length_app.
  assert (silent is_sync (cache_access o)) as Hs by (by apply silent_cache_access).
  by rewrite (Hs _), Nat.add_0_r.
Qed.

Lemma cache_op_flag o w :
  storageSynced (this (world_of (cache_op o w))) =
  storageSynced (this (world_of (syncIfNeeded w))).
Proof.
  rewrite cache_op_run. unfold world_of at 1. simpl.
  by apply (keeps_cache_access (fun w => storageSynced (this w))).
Qed.

Lemma cache_op_total o : total (cache_op o).
Proof. intros w. by rewrite cache_op_run. Qed.

Lemma sync_calls_app t1 t2 :
  sync_calls (t1 ++ t2) = sync_calls t1 + sync_calls t2.
Proof. unfold sync_calls. by rewrite List.filter_app, length_app. Qed.

Lemma synced_cache_ops os w :
  storageSynced (this w) = true ->
  sync_calls (effects_of (mapM cache_op os w)) = 0
  /\ storageSynced (this (world_of (mapM cache_op os w))) = true.
Proof.
  revert w. induction os as [|o os IH]; intros w Hw; [done|].
  cbn [mapM].
  pose proof (cache_op_sync_calls o w) as Hc.
  pose proof (cache_op_flag o w) as Hf.
  rewrite (syncIfNeeded_synced w Hw) in Hc, Hf.
  pose proof (cache_op_total o w) as Ht.
  rewrite effects_of_bind, world_of_bind.
  destruct (cache_op o w) as [[[[]|?] w1] t1]; [clear Ht | done].
  unfold effects_of, world_of in Hc, Hf. simpl in Hc, Hf. rewrite Hw in Hf.
  rewrite effects_of_bind, world_of_bind. destruct (IH w1 Hf) as [IHc IHf].
  destruct (mapM cache_op os w1) as [[[l|?] w2] t2];
    unfold effects_of, world_of in *; simpl in *;
    rewrite ?sync_calls_app, Hc, IHc; done.
Qed.

(** * The claims *)

(** C1, as amended.  The filter on the event discriminator is in the Hub
    callback, not in [dispatchEvent]: for every payload whose [event] is not
    ["record"], and every state of the instance (so every registry),
    [analyticsListener] returns without calling [dispatchEvent]; it makes no
    call at all, in particular none to a provider's [processInAppMessages],
    no cache read and no publication, and it leaves the state as it was. *)
Theorem analyticsListener_ignores_other_events payload w :
  event payload <> "record" ->
  analyticsListener payload w = (Ok tt, w, []).
Proof.
  intros Hev. unfold analyticsListener.
  destruct (String.eqb (event payload) "record") eqn:Heq; [|done].
  by apply String.eqb_eq in Heq.
Qed.

(** What [addPluggable] does with a provider that passes the category and
    sub-category check: it appends it to the registry and then calls its
    [configure] once, with [config[name]] alone, the entry stored under the
    provider's name, which is [undefined] when there is none (and the name
    is not one that [Object.prototype] answers to).  Nothing of
    the rest of the configuration reaches the provider on this path, whereas
    [configure] hands [merged_config] to the providers already registered. *)
Theorem addPluggable_configures_with_own_entry p w :
  getCategory p = "Notifications" ->
  getSubCategory p = "InAppMessaging" ->
  addPluggable (Some p) w =
    (Ok tt, set_pluggables (pluggables (this w) ++ [p]) w,
     [EProviderConfigure p (get_prop (config (this w)) (getProviderName p))])
  /\ (config (this w) !! getProviderName p = None ->
      inherited (getProviderName p) = false ->
      get_prop (config (this w)) (getProviderName p) = VUndefined).
Proof.
  intros Hc Hs. split.
  - apply addPluggable_accepts. by apply category_ok_spec.
  - intros Hnone Hown. unfold get_prop. by rewrite Hnone, Hown.
Qed.

(** C3.  In every state the instance can reach, every registered provider
    has category ["Notifications"] and sub-category ["InAppMessaging"];
    [addPluggable] with a provider that fails either test, or with a nullish
    argument, returns normally, makes no call and leaves the state, hence
    the registry, exactly as it was. *)
Theorem registry_holds_only_in_app_messaging_providers h0 sigma w :
  reachable AWSPinpointProvider h0 sigma w ->
  Forall (fun p => getCategory p = "Notifications"
                   /\ getSubCategory p = "InAppMessaging")
         (pluggables (this w))
  /\ (forall p,
        ~ (getCategory p = "Notifications" /\ getSubCategory p = "InAppMessaging") ->
        addPluggable (Some p) w = (Ok tt, w, []))
  /\ addPluggable None w = (Ok tt, w, []).
Proof.
  intros Hw. split; [by apply reachable_valid in Hw|]. split; [|done].
  intros p Hp. apply addPluggable_rejects.
  destruct (category_ok p) eqn:Hok; [|done].
  by apply category_ok_spec in Hok.
Qed.

Lemma process_calls_only ev (l : list (Provider' * option (list Message))) :
  List.filter is_process (map (process_call ev) l) = map (process_call ev) l
  /\ List.filter is_received (map (process_call ev) l) = []
  /\ List.filter is_storage_write (map (process_call ev) l) = [].
Proof.
  induction l as [|x l (IH1 & IH2 & IH3)]; [done|]. simpl. by rewrite IH1, IH2, IH3.
Qed.

(** The reads of [dispatchEvent] call neither a provider nor the
    listeners. *)
Lemma reads_silent (sel : Effect' -> bool) ps w begun w0 t0 read w1 t1 :
  (forall h, sel (EStorageSync h) = false) ->
  (forall h k, sel (EGetItem h k) = false) ->
  (forall msg, sel (ELogError msg) = false) ->
  begin_reads ps w = (Ok begun, w0, t0) ->
  resume_reads begun w0 = (Ok read, w1, t1) ->
  List.filter sel t0 = [] /\ List.filter sel t1 = [].
Proof.
  intros Hsync Hget Herror Hbegun Hread. split.
  - assert (silent sel (begin_reads ps)) as Hs by (by apply silent_begin_reads).
    specialize (Hs w). by rewrite Hbegun in Hs.
  - assert (silent sel (resume_reads begun)) as Hs by (by apply silent_resume_reads).
    specialize (Hs w0). by rewrite Hread in Hs.
Qed.

(** C4.  [dispatchEvent] calls [processInAppMessages] exactly once on every
    registered provider (the calls are made as the cache reads finish,
    which need not be in registry order).  When every call has answered,
    the answers are concatenated, in registry order and each as the
    provider gave it, and the result is published under [MESSAGES_RECEIVED]
    exactly once if it is not empty and not at all if it is empty.  (When a
    call rejects, nothing is published.)  [calls] lists, in registry order,
    each provider with the messages it was called with. *)
Theorem dispatchEvent_publishes_flattened_results ev w :
  exists calls,
    map fst calls = pluggables (this w)
    /\ List.filter is_process (effects_of (dispatchEvent ev w)) ≡ₚ
         map (fun x => EProcessInAppMessages x.1 x.2 ev) calls
    /\ (forall results,
          map (fun x => processInAppMessages x.1 x.2 ev) calls = map Ok results ->
          List.filter is_received (effects_of (dispatchEvent ev w)) =
            match concat results with
            | [] => []
            | _ :: _ => [ENotify (PMessages (concat results)) MESSAGES_RECEIVED]
            end)
    /\ (forall x err,
          In x calls ->
          processInAppMessages x.1 x.2 ev = Throw err ->
          List.filter is_received (effects_of (dispatchEvent ev w)) = []).
Proof.
  destruct (reads_run (pluggables (this w)) w)
    as (begun & w0 & t0 & read & w1 & t1 & Hbegun & Hread & Hb & Hr).
  exists read. split; [done|].
  rewrite (dispatchEvent_run ev w _ _ _ _ _ _ Hbegun Hread). cbv zeta.
  set (calls := evaluation_order begun read).
  assert (calls ≡ₚ read) as Hperm.
  { apply evaluation_order_permutation.
    by rewrite <- (length_map fst begun), <- (length_map fst read), Hb, Hr. }
  assert (settle_order (map (process_result ev) calls) ≡ₚ map (process_result ev) read)
    as Hsettled by (rewrite settle_order_permutation; by apply Permutation_map).
  destruct (reads_silent is_process _ _ _ _ _ _ _ _ ltac:(done) ltac:(done) ltac:(done)
              Hbegun Hread) as [Hp0 Hp1].
  destruct (reads_silent is_received _ _ _ _ _ _ _ _ ltac:(done) ltac:(done) ltac:(done)
              Hbegun Hread) as [Hr0 Hr1].
  destruct (process_calls_only ev calls) as (Hcp & Hcr & _).
  split; [|split].
  - assert (List.filter is_process (t0 ++ t1 ++ map (process_call ev) calls)
            ≡ₚ map (process_call ev) read) as Hcalls.
    { rewrite !List.filter_app, Hp0, Hp1, Hcp. simpl. by apply Permutation_map. }
    destruct (Promise_all _ _) as [messages|err]; unfold effects_of; cbn [snd]; [|done].
    rewrite !app_assoc, List.filter_app, <- !app_assoc, Hcalls.
    destruct (concat messages); simpl; by rewrite app_nil_r.
  - intros results Hres. unfold Promise_all.
    assert (first_rejection (settle_order (map (process_result ev) calls)) = None) as ->.
    { apply (first_rejection_none _ _ Hsettled). intros r Hin.
      unfold process_result in Hin. rewrite Hres in Hin.
      by apply list_elem_of_fmap in Hin as (a & -> & _). }
    unfold process_result. rewrite !Hres, !fulfilled_all.
    unfold effects_of. cbn [snd]. rewrite !List.filter_app, Hr0, Hr1, Hcr.
    by destruct (concat results).
  - intros x err Hx Hthrow. unfold Promise_all.
    destruct (first_rejection _) as [e|] eqn:Hfirst.
    + unfold effects_of. cbn [snd]. by rewrite !List.filter_app, Hr0, Hr1, Hcr.
    + exfalso. pose proof (proj1 (first_rejection_none _ _ Hsettled) Hfirst) as Hok.
      specialize (Hok (Throw err)). unfold process_result in Hok. rewrite <- Hthrow in Hok.
      assert (is_ok (processInAppMessages x.1 x.2 ev) = true) as Hx'.
      { apply Hok. apply list_elem_of_In. by apply (in_map (fun x => processInAppMessages x.1 x.2 ev)). }
      by rewrite Hthrow in Hx'.
Qed.

(** C5.  [getMessages] never raises.  Whatever the key and the state, it
    resolves; when the configured storage is a storage object, it resolves
    to [undefined] ("no result") if [getItem] throws or if [JSON.parse]
    throws, to the empty sequence if nothing is stored under the key (or the
    stored text is empty), and to the parsed messages otherwise; when
    [config.storage] is not a storage object the access throws and the
    result is [undefined] as well. *)
Theorem getMessages_never_raises key w :
  exists r,
    result_of (getMessages key w) = Ok r /\
    let w1 := world_of (syncIfNeeded w) in
    match storage_of w1 with
    | VStorage h =>
        match getItem key (stores w1 h) with
        | (Throw _, _) => r = None
        | (Ok None, _) => r = Some []
        | (Ok (Some s), _) =>
            if String.eqb s "" then r = Some []
            else match JSON_parse s with
                 | Ok ms => r = Some ms
                 | Throw _ => r = None
                 end
        end
    | _ => r = None
    end.
Proof.
  cbv zeta. set (w1 := world_of (syncIfNeeded w)).
  assert (result_of (getMessages key w) = result_of (guarded_read key w1)) as ->
    by (by rewrite getMessages_alone, result_of_bind, syncIfNeeded_run).
  destruct (storage_of w1) as [| |b|s0|o|h|k] eqn:Hst;
    try (rewrite guarded_read_not_storage by (intros h'; by rewrite Hst);
         by exists None).
  rewrite (guarded_read_run key w1 h Hst).
  destruct (getItem key (stores w1 h)) as [[[s|]|err] s']; [|by eexists..].
  destruct (String.eqb s ""); [by eexists|].
  destruct (JSON_parse s); by eexists.
Qed.

(** C6.  Writing a sequence of messages to a provider's cache slot and then
    reading the slot gives the sequence back, provided no storage operation
    fails (the sync step, if it calls [sync], is not rejected; [setItem]
    returns), the storage gives back under the key the text that was stored,
    and [JSON.parse] inverts [JSON.stringify] on the sequence. *)
Theorem cache_round_trip (name : string) ms w h s st2 st3 :
  let key := String.append name STORAGE_KEY_SUFFIX in
  storage_of w = VStorage h ->
  (storageSynced (this w) = false ->
   forall r s', sync (stores w h) = Some (r, s') -> is_ok r = true) ->
  JSON_stringify ms = Ok s ->
  setItem key s (stores (world_of (syncIfNeeded w)) h) = (Ok tt, st2) ->
  getItem key st2 = (Ok (Some s), st3) ->
  JSON_parse s = Ok ms ->
  result_of ((setMessages key (Some ms) >> getMessages key) w) = Ok (Some ms).
Proof.
  intros key Hst Hsync Hs Hset Hget Hparse.
  assert (storageSynced (this (world_of (syncIfNeeded w))) = true) as Hflag.
  { destruct (storageSynced (this w)) eqn:Hw.
    - by rewrite (syncIfNeeded_synced w Hw).
    - rewrite (syncIfNeeded_unsynced w Hw).
      destruct (sync (stores w h)) as [[[[]|err] s']|] eqn:Hsy.
      + by rewrite (syncStorage_resolved w h s' Hst Hsy).
      + by specialize (Hsync eq_refl _ _ eq_refl).
      + by rewrite (syncStorage_without_sync w h Hst Hsy). }
  rewrite result_of_bind, setMessages_alone, bind_unfold, syncIfNeeded_run.
  cbv beta iota. set (w1 := world_of (syncIfNeeded w)) in *.
  assert (storage_of w1 = VStorage h) as Hst1
    by (unfold w1; by rewrite syncIfNeeded_storage_of).
  rewrite (guarded_write_run key ms w1 h s Hst1 Hs), Hset.
  unfold result_of at 1, world_of at 1. cbn [fst snd].
  set (w2 := set_store h st2 w1).
  rewrite getMessages_alone, result_of_bind, (syncIfNeeded_synced w2) by done.
  rewrite (guarded_read_run key w2 h) by done.
  unfold w2. simpl. rewrite fn_lookup_insert, Hget.
  destruct (String.eqb s "") eqn:Hempty.
  - apply String.eqb_eq in Hempty. subst s.
    pose proof (JSON_parse_empty (Message := Message)) as He.
    by rewrite Hparse in He.
  - by rewrite Hparse.
Qed.

(** C7.  [setMessages] with absent messages returns at once: it makes no
    call, so none to the storage, and leaves the state as it was.  Writing
    the empty sequence is different: on a storage object it calls [setItem]
    exactly once, with the key and the serialized empty sequence. *)
Theorem setMessages_without_messages_is_a_no_op key w :
  setMessages key None w = (Ok tt, w, [])
  /\ (forall h s,
        storage_of w = VStorage h ->
        JSON_stringify [] = Ok s ->
        List.filter is_storage_write (effects_of (setMessages key (Some []) w)) =
          [ESetItem h key s]).
Proof.
  split; [done|]. intros h s Hst Hs.
  rewrite setMessages_alone, effects_of_bind, syncIfNeeded_run. cbv beta iota.
  set (w1 := world_of (syncIfNeeded w)).
  assert (storage_of w1 = VStorage h) as Hst1
    by (unfold w1; by rewrite syncIfNeeded_storage_of).
  rewrite List.filter_app.
  assert (silent is_storage_write syncIfNeeded) as Hsilent
    by (by apply silent_syncIfNeeded).
  rewrite (Hsilent w), (guarded_write_run key [] w1 h s Hst1 Hs).
  by destruct (setItem key s (stores w1 h)) as [[[]|err] s'].
Qed.

(** C8.  On a storage object, every cache operation (read, write of a
    sequence, clear) returns normally, and: when the flag is set it does not
    call [sync] and the flag stays set, and so for any further sequence of
    cache operations; when the flag is not set it calls [sync] once if the
    storage has one, the flag being set if the call resolves and left unset
    if it rejects (so that the next operation calls [sync] again), and sets
    the flag without a call if the storage has none. *)
Theorem sync_is_retried_until_it_succeeds o w h :
  storage_of w = VStorage h ->
  is_ok (result_of (cache_op o w)) = true
  /\ (if storageSynced (this w)
      then sync_calls (effects_of (cache_op o w)) = 0
           /\ storageSynced (this (world_of (cache_op o w))) = true
      else match sync (stores w h) with
           | Some (Ok _, _) =>
               sync_calls (effects_of (cache_op o w)) = 1
               /\ storageSynced (this (world_of (cache_op o w))) = true
           | Some (Throw _, _) =>
               sync_calls (effects_of (cache_op o w)) = 1
               /\ storageSynced (this (world_of (cache_op o w))) = false
           | None =>
               sync_calls (effects_of (cache_op o w)) = 0
               /\ storageSynced (this (world_of (cache_op o w))) = true
           end)
  /\ (storageSynced (this w) = true ->
      forall os,
        sync_calls (effects_of (mapM cache_op os w)) = 0
        /\ storageSynced (this (world_of (mapM cache_op os w))) = true).
Proof.
  intros Hst. split; [apply cache_op_total|]. split.
  - rewrite cache_op_sync_calls, cache_op_flag.
    destruct (storageSynced (this w)) eqn:Hw.
    + by rewrite (syncIfNeeded_synced w Hw).
    + rewrite (syncIfNeeded_unsynced w Hw).
      destruct (sync (stores w h)) as [[[[]|err] s']|] eqn:Hsy.
      * by rewrite (syncStorage_resolved w h s' Hst Hsy).
      * by rewrite (syncStorage_rejected w h err s' Hst Hsy).
      * by rewrite (syncStorage_without_sync w h Hst Hsy).
  - intros Hw os. by apply synced_cache_ops.
Qed.

(** C9.  After any sequence of calls on a new instance, [configure] returns
    the stored configuration, which never has a [listenForAnalyticsEvents]
    key; a [configure] whose argument has no [storage] key leaves the
    [storage] entry as it was, so that the storage object installed by the
    constructor stays in the configuration as long as no argument provides
    a [storage] key. *)
Theorem configure_effective_config h0 sigma calls arg :
  let w := after AWSPinpointProvider calls (constructor h0 sigma) in
  let x := configure AWSPinpointProvider arg w in
  result_of x = Ok (config (this (world_of x)))
  /\ config (this (world_of x)) !! "listenForAnalyticsEvents" = None
  /\ (default ∅ arg !! "storage" = None ->
      config (this (world_of x)) !! "storage" = config (this w) !! "storage")
  /\ (Forall (fun c => provides_storage c = false) (calls ++ [CallConfigure arg]) ->
      config (this (world_of x)) !! "storage" = Some (VStorage h0)).
Proof.
  cbv zeta. split; [apply configure_returns_config|].
  rewrite configure_config. split; [|split].
  - rewrite lookup_union_None. split; [apply lookup_delete_eq|].
    apply (after_never_stores_listen_option h0 sigma calls).
  - intros Harg. rewrite lookup_union_r; [done|].
    by rewrite lookup_delete_ne.
  - intros Hcalls. apply (after_keeps_storage h0 sigma) in Hcalls.
    by rewrite after_snoc, call_config in Hcalls.
Qed.

(** C10.  When the configured storage object has no [sync] function, the
    sync step returns normally, sets the flag and makes no call (no [sync],
    no error logged); a cache operation then does exactly what it does when
    started with the flag already set: same result, same final state, same
    calls. *)
Theorem syncStorage_without_sync_function w h :
  storage_of w = VStorage h ->
  sync (stores w h) = None ->
  syncStorage w = (Ok tt, set_storageSynced true w, [])
  /\ (forall key, getMessages key w = getMessages key (set_storageSynced true w))
  /\ (forall key ms,
        setMessages key (Some ms) w = setMessages key (Some ms) (set_storageSynced true w))
  /\ (forall key, removeMessages key w = removeMessages key (set_storageSynced true w)).
Proof.
  intros Hst Hsy.
  pose proof (syncStorage_without_sync w h Hst Hsy) as Hsync.
  assert (syncIfNeeded w = (Ok tt, set_storageSynced true w, [])) as Hw.
  { destruct (storageSynced (this w)) eqn:Hflag.
    - rewrite (syncIfNeeded_synced w Hflag).
      destruct w as [[c l ps b] st]. simpl in Hflag. by subst b.
    - by rewrite (syncIfNeeded_unsynced w Hflag). }
  assert (syncIfNeeded (set_storageSynced true w) = (Ok tt, set_storageSynced true w, []))
    as Hw' by (by apply syncIfNeeded_synced).
  split; [done|]. split; [|split]; intros.
  - by rewrite !getMessages_alone, !bind_unfold, Hw, Hw'.
  - by rewrite !setMessages_alone, !bind_unfold, Hw, Hw'.
  - by rewrite !removeMessages_alone, !bind_unfold, Hw, Hw'.
Qed.

(** * Further properties *)

(** ** The registry *)

Lemma find_first {A} (f : A -> bool) (l : list A) x :
  List.find f l = Some x ->
  exists l1 l2, l = l1 ++ x :: l2 /\ f x = true /\ Forall (fun y => f y = false) l1.
Proof.
  induction l as [|y l IH]; [done|]. simpl.
  destruct (f y) eqn:Hy.
  - intros [= ->]. by exists [], l.
  - intros Hx. destruct (IH Hx) as (l1 & l2 & -> & Hfx & Hl1).
    exists (y :: l1), l2. repeat split; [done|]. by constructor.
Qed.

Lemma find_none {A} (f : A -> bool) (l : list A) :
  List.find f l = None <-> Forall (fun y => f y = false) l.
Proof.
  induction l as [|y l IH]; simpl.
  - split; [constructor | done].
  - destruct (f y) eqn:Hy.
    + split; [done|]. intros H. apply Forall_inv in H. congruence.
    + rewrite IH. split; [by constructor | apply Forall_inv_tail].
Qed.

Lemma find_at {A} (f : A -> bool) (l1 l2 : list A) x :
  f x = true -> Forall (fun y => f y = false) l1 ->
  List.find f (l1 ++ x :: l2) = Some x.
Proof.
  intros Hx. induction 1 as [|y l1 Hy _ IH]; simpl; [by rewrite Hx|].
  by rewrite Hy.
Qed.

Lemma findIndex_at {A} (f : A -> bool) (l1 l2 : list A) x :
  f x = true -> Forall (fun y => f y = false) l1 ->
  findIndex f (l1 ++ x :: l2) = Some (length l1).
Proof.
  intros Hx. induction 1 as [|y l1 Hy _ IH]; simpl; [by rewrite Hx|].
  by rewrite Hy, IH.
Qed.

Lemma findIndex_none {A} (f : A -> bool) (l : list A) :
  Forall (fun y => f y = false) l -> findIndex f l = None.
Proof. induction 1 as [|y l Hy _ IH]; simpl; [done|]. by rewrite Hy, IH. Qed.

Lemma delete_middle {A} (l1 l2 : list A) x : delete (length l1) (l1 ++ x :: l2) = l1 ++ l2.
Proof. induction l1 as [|y l1 IH]; simpl; [done|]. by rewrite IH. Qed.

Lemma name_is_false n p : name_is n p = false <-> getProviderName p <> n.
Proof.
  unfold name_is. destruct (String.eqb_spec (getProviderName p) n); split; congruence.
Qed.

Lemma name_is_true n p : name_is n p = true <-> getProviderName p = n.
Proof. apply String.eqb_eq. Qed.

Lemma others_named n (l : list Provider') :
  Forall (fun q => getProviderName q <> n) l <-> Forall (fun q => name_is n q = false) l.
Proof. apply Forall_iff. intros q. by rewrite name_is_false. Qed.

Lemma getPluggable_result n w :
  result_of (getPluggable n w) = Ok (List.find (name_is n) (pluggables (this w))).
Proof.
  unfold getPluggable, bind, gets, result_of. simpl.
  by destruct (List.find (name_is n) (pluggables (this w))).
Qed.

(** X1.  [getPluggable] never throws and never changes the state.  It
    answers the first registered provider with the name, logging nothing,
    and answers [null], after one debug line, exactly when no registered
    provider has the name. *)
Theorem getPluggable_answers_first_named n w :
  world_of (getPluggable n w) = w
  /\ match result_of (getPluggable n w) with
     | Ok (Some p) =>
         effects_of (getPluggable n w) = []
         /\ getProviderName p = n
         /\ exists l1 l2,
              pluggables (this w) = l1 ++ p :: l2
              /\ Forall (fun q => getProviderName q <> n) l1
     | Ok None =>
         effects_of (getPluggable n w) = [ELogDebug ("No plugin found with name " +:+ n)]
         /\ Forall (fun q => getProviderName q <> n) (pluggables (this w))
     | Throw _ => False
     end.
Proof.
  unfold getPluggable, bind, gets, log_debug, emit, ret, world_of, result_of, effects_of.
  simpl. destruct (List.find (name_is n) (pluggables (this w))) as [p|] eqn:Hfind; simpl.
  - split; [done|]. split; [done|].
    destruct (find_first _ _ _ Hfind) as (l1 & l2 & Hl & Hp & Hl1).
    split; [by apply name_is_true|]. exists l1, l2. split; [done|]. by apply others_named.
  - split; [done|]. split; [done|]. by apply others_named, find_none.
Qed.

(** X2.  [removePluggable] removes the first registered provider with the
    name and nothing else: the providers before it and after it stay, in
    order, later providers with the same name included.  When no registered
    provider has the name it writes one debug line and leaves the state as
    it was.  It never throws. *)
Theorem removePluggable_removes_first_named n w :
  (forall l1 p l2,
     pluggables (this w) = l1 ++ p :: l2 ->
     getProviderName p = n ->
     Forall (fun q => getProviderName q <> n) l1 ->
     removePluggable n w = (Ok tt, set_pluggables (l1 ++ l2) w, []))
  /\ (Forall (fun q => getProviderName q <> n) (pluggables (this w)) ->
      removePluggable n w =
        (Ok tt, w, [ELogDebug ("No plugin found with name " +:+ n)])).
Proof.
  split.
  - intros l1 p l2 Hl Hp Hl1. unfold removePluggable, bind, gets. simpl.
    rewrite Hl, findIndex_at; [|by apply name_is_true|by apply others_named].
    unfold modify. simpl. by rewrite delete_middle.
  - intros Hnone. unfold removePluggable, bind, gets. simpl.
    rewrite findIndex_none by (by apply others_named). done.
Qed.

(** X3.  Registering a provider that passes the check, under a name no
    registered provider has, and then looking the name up answers that
    provider; removing the name afterwards restores the registry, and a
    further lookup answers [null]. *)
Theorem addPluggable_then_lookup_and_remove p w :
  getCategory p = "Notifications" ->
  getSubCategory p = "InAppMessaging" ->
  Forall (fun q => getProviderName q <> getProviderName p) (pluggables (this w)) ->
  let w1 := world_of (addPluggable (Some p) w) in
  let w2 := world_of (removePluggable (getProviderName p) w1) in
  result_of (getPluggable (getProviderName p) w1) = Ok (Some p)
  /\ pluggables (this w2) = pluggables (this w)
  /\ result_of (getPluggable (getProviderName p) w2) = Ok None.
Proof.
  intros Hc Hs Hfresh. cbv zeta.
  set (w1 := set_pluggables (pluggables (this w) ++ [p]) w).
  assert (world_of (addPluggable (Some p) w) = w1) as ->
    by (by rewrite (addPluggable_accepts p w) by (by apply category_ok_spec)).
  destruct (removePluggable_removes_first_named (getProviderName p) w1) as [Hrm _].
  rewrite (Hrm (pluggables (this w)) p []) by done.
  unfold world_of. cbn [fst snd]. rewrite app_nil_r, !getPluggable_result.
  split; [|split; [done|]].
  - f_equal. unfold w1. simpl.
    apply find_at; [by apply name_is_true | by apply others_named].
  - f_equal. simpl. by apply find_none, others_named.
Qed.

(** X4.  The registry does not de-duplicate.  Registering a provider that
    passes the check under a name already registered keeps both entries; a
    lookup still answers the older one, and removing the name removes the
    older one and keeps the newcomer, at the end. *)
Theorem addPluggable_keeps_duplicates p q l1 l2 w :
  getCategory p = "Notifications" ->
  getSubCategory p = "InAppMessaging" ->
  pluggables (this w) = l1 ++ q :: l2 ->
  getProviderName q = getProviderName p ->
  Forall (fun r => getProviderName r <> getProviderName p) l1 ->
  let w1 := world_of (addPluggable (Some p) w) in
  pluggables (this w1) = l1 ++ q :: l2 ++ [p]
  /\ result_of (getPluggable (getProviderName p) w1) = Ok (Some q)
  /\ pluggables (this (world_of (removePluggable (getProviderName p) w1))) =
     l1 ++ l2 ++ [p].
Proof.
  intros Hc Hs Hl Hq Hl1. cbv zeta.
  set (w1 := set_pluggables (pluggables (this w) ++ [p]) w).
  assert (world_of (addPluggable (Some p) w) = w1) as ->
    by (by rewrite (addPluggable_accepts p w) by (by apply category_ok_spec)).
  assert (pluggables (this w1) = l1 ++ q :: (l2 ++ [p])) as Hw1.
  { unfold w1. simpl. by rewrite Hl, <- app_assoc. }
  split; [done|]. split.
  - rewrite getPluggable_result, Hw1.
    rewrite find_at; [done | by apply name_is_true | by apply others_named].
  - destruct (removePluggable_removes_first_named (getProviderName p) w1) as [Hrm _].
    by rewrite (Hrm l1 q (l2 ++ [p]) Hw1 Hq Hl1).
Qed.

(** ** [configure] *)

Lemma spread_run v w : spread v w = (Ok (own_properties (stores w) v), w, []).
Proof. by destruct v. Qed.

Lemma merged_config_run p w :
  merged_config p w = (Ok (handed_config (stores w) (config (this w)) p), w, []).
Proof.
  unfold merged_config. rewrite bind_unfold. unfold gets at 1. cbv beta iota.
  rewrite bind_unfold, spread_run. done.
Qed.

Lemma configure_provider_run p w :
  (let* c := merged_config p in emit (EProviderConfigure p c)) w =
  (Ok tt, w, [EProviderConfigure p (handed_config (stores w) (config (this w)) p)]).
Proof. by rewrite bind_unfold, merged_config_run. Qed.

Lemma configure_providers_run (ps : list Provider') w :
  mapM (fun p => let* c := merged_config p in emit (EProviderConfigure p c)) ps w =
  (Ok (map (fun _ => tt) ps), w,
   map (fun p => EProviderConfigure p (handed_config (stores w) (config (this w)) p)) ps).
Proof.
  induction ps as [|p ps IH]; [done|].
  cbn [mapM]. rewrite bind_unfold, configure_provider_run. cbv beta iota.
  rewrite bind_unfold, IH. unfold result_of, world_of, effects_of. simpl.
  by rewrite app_nil_r.
Qed.

Lemma addPluggable_result pluggable w : result_of (addPluggable pluggable w) = Ok tt.
Proof.
  pose proof (addPluggable_total pluggable w) as Ht.
  by destruct (addPluggable pluggable w) as [[[[]|?] ?] ?].
Qed.

Lemma addPluggable_keeps_listening pluggable :
  keeps (fun w => listeningForAnalyticEvents (this w)) (addPluggable pluggable).
Proof. unfold addPluggable. rules. Qed.

Lemma configure_run arg w :
  let c := merged_with arg (config (this w)) in
  let w1 := set_config c w in
  let w2 := if Nat.eqb (length (pluggables (this w))) 0
            then world_of (addPluggable (Some AWSPinpointProvider) w1)
            else w1 in
  let listen := asks_to_listen arg && negb (listeningForAnalyticEvents (this w)) in
  configure AWSPinpointProvider arg w =
  (Ok c,
   if listen then set_listening true w2 else w2,
   [ELogDebug "configure InAppMessaging"]
   ++ map (fun p => EProviderConfigure p (handed_config (stores w) c p))
        (pluggables (this w))
   ++ (if Nat.eqb (length (pluggables (this w))) 0
       then effects_of (addPluggable (Some AWSPinpointProvider) w1)
       else [])
   ++ (if listen then [EHubListen "analytics"] else [])).
Proof.
  cbv zeta. unfold configure, asks_to_listen, merged_with, log_debug.
  set (c := delete "listenForAnalyticsEvents" (default ∅ arg) ∪ config (this w)).
  set (wants := truthy _).
  rewrite bind_gets, bind_modify. fold c. set (w1 := set_config c w).
  rewrite bind_emit, bind_gets.
  rewrite bind_unfold, configure_providers_run. cbv beta iota.
  rewrite bind_gets.
  change (pluggables (this w1)) with (pluggables (this w)).
  change (stores w1) with (stores w). change (config (this w1)) with c.
  set (w2 := if Nat.eqb (length (pluggables (this w))) 0
             then world_of (addPluggable (Some AWSPinpointProvider) w1) else w1).
  set (t2 := if Nat.eqb (length (pluggables (this w))) 0
             then effects_of (addPluggable (Some AWSPinpointProvider) w1) else []).
  assert ((if Nat.eqb (length (pluggables (this w))) 0
           then addPluggable (Some AWSPinpointProvider) else ret tt) w1
          = (Ok tt, w2, t2)) as Hadd.
  { unfold w2, t2. destruct (Nat.eqb (length (pluggables (this w))) 0); [|done].
    by rewrite (triple_eta (addPluggable _ w1)), addPluggable_result. }
  assert (listeningForAnalyticEvents (this w2) = listeningForAnalyticEvents (this w)
          /\ config (this w2) = c) as [Hl Hc].
  { unfold w2. destruct (Nat.eqb (length (pluggables (this w))) 0); [|done].
    by rewrite (addPluggable_keeps_listening _ w1), (addPluggable_keeps_config _ w1). }
  rewrite bind_unfold, Hadd. cbv beta iota. rewrite bind_gets, Hl.
  destruct (wants && negb (listeningForAnalyticEvents (this w)));
    unfold bind, emit, modify, ret, gets, result_of, world_of, effects_of; simpl;
    rewrite Hc, ?app_nil_r; done.
Qed.

Lemma configure_calls_of_effects arg w :
  List.filter is_configure (effects_of (configure AWSPinpointProvider arg w)) =
  map (fun p => EProviderConfigure p
                  (handed_config (stores w) (merged_with arg (config (this w))) p))
      (pluggables (this w))
  ++ (if Nat.eqb (length (pluggables (this w))) 0 && category_ok AWSPinpointProvider
      then [EProviderConfigure AWSPinpointProvider
              (get_prop (merged_with arg (config (this w)))
                 (getProviderName AWSPinpointProvider))]
      else []).
Proof.
  rewrite configure_run. unfold effects_of at 1. cbn [snd].
  rewrite !List.filter_app. simpl.
  assert (forall (g : Provider' -> Value) (l : list Provider'),
            List.filter is_configure (map (fun p => EProviderConfigure p (g p)) l)
            = map (fun p => EProviderConfigure p (g p)) l) as Hmap.
  { intros g l. induction l as [|q l IH]; [done|]. simpl. by rewrite IH. }
  rewrite Hmap. f_equal.
  destruct (Nat.eqb (length (pluggables (this w))) 0); simpl.
  - unfold addPluggable. destruct (category_ok AWSPinpointProvider); simpl;
      by destruct (asks_to_listen arg && _).
  - by destruct (asks_to_listen arg && _).
Qed.

(** X5.  [configure] registers the default provider exactly when the
    registry is empty (and the default provider passes the check of
    [addPluggable]); it removes and reorders nothing.  The default provider
    is configured on the [addPluggable] path, hence with its own entry of
    the new configuration alone. *)
Theorem configure_registers_default_provider arg w :
  pluggables (this (world_of (configure AWSPinpointProvider arg w))) =
    match pluggables (this w) with
    | [] => if category_ok AWSPinpointProvider then [AWSPinpointProvider] else []
    | _ :: _ => pluggables (this w)
    end
  /\ (pluggables (this w) = [] ->
      List.filter is_configure (effects_of (configure AWSPinpointProvider arg w)) =
        if category_ok AWSPinpointProvider
        then [EProviderConfigure AWSPinpointProvider
                (get_prop (merged_with arg (config (this w)))
                   (getProviderName AWSPinpointProvider))]
        else []).
Proof.
  split.
  - rewrite configure_run. unfold world_of at 1. cbn [fst snd].
    assert (forall b (w2 : World'),
              pluggables (this (if b : bool then set_listening true w2 else w2))
              = pluggables (this w2)) as Hl by (by intros []).
    rewrite Hl. destruct (pluggables (this w)) as [|q ps] eqn:Hps; simpl; [|done].
    unfold addPluggable. destruct (category_ok AWSPinpointProvider); simpl; [|done].
    by rewrite Hps.
  - intros Hps. rewrite configure_calls_of_effects, Hps. simpl.
    by destruct (category_ok AWSPinpointProvider).
Qed.


(** X7.  The stored configuration is a shallow merge in which the argument
    wins: after [configure], every key other than [listenForAnalyticsEvents]
    holds the argument's value if the argument has the key (even an
    [undefined] one) and the earlier value otherwise; an entry that is an
    object is replaced, not merged.  Calling [configure] again with the same
    argument stores the same configuration. *)
Theorem configure_merges_shallowly arg w :
  let w1 := world_of (configure AWSPinpointProvider arg w) in
  (forall k, k <> "listenForAnalyticsEvents" ->
     config (this w1) !! k =
       match default ∅ arg !! k with
       | Some v => Some v
       | None => config (this w) !! k
       end)
  /\ config (this (world_of (configure AWSPinpointProvider arg w1))) = config (this w1).
Proof.
  cbv zeta. rewrite !configure_config. split.
  - intros k Hk. rewrite lookup_union, lookup_delete_ne by done.
    destruct (default ∅ arg !! k), (config (this w) !! k); done.
  - apply map_eq. intros k. rewrite !lookup_union.
    destruct (delete "listenForAnalyticsEvents" (default ∅ arg) !! k),
      (config (this w) !! k); done.
Qed.

(** ** Calls the storage and the pipeline never make *)

Section PipelineSilence.
Context (sel : Effect' -> bool).
Hypothesis sel_sync : forall h, sel (EStorageSync h) = false.
Hypothesis sel_get : forall h k, sel (EGetItem h k) = false.
Hypothesis sel_set : forall h k v, sel (ESetItem h k v) = false.
Hypothesis sel_remove : forall h k, sel (ERemoveItem h k) = false.
Hypothesis sel_error : forall msg, sel (ELogError msg) = false.
Hypothesis sel_debug : forall msg, sel (ELogDebug msg) = false.
Hypothesis sel_fetch : forall p, sel (EGetInAppMessages p) = false.
Hypothesis sel_process : forall p ms ev, sel (EProcessInAppMessages p ms ev) = false.
Hypothesis sel_notify : forall payload k, sel (ENotify payload k) = false.

Hint Resolve silent_storage_getItem silent_storage_setItem silent_storage_removeItem
  silent_storage_sync silent_typeof_sync silent_log_error silent_syncStorage_call
  silent_syncStorage_resume silent_getMessages_begin silent_getMessages_resume
  silent_begin_reads silent_resume_reads : core.

Lemma silent_log_debug msg : silent sel (log_debug msg).
Proof. intros w. simpl. by rewrite sel_debug. Qed.

Hint Resolve silent_log_debug : core.

Lemma silent_setMessages_begin key messages : silent sel (setMessages_begin key messages).
Proof. unfold setMessages_begin, setMessages_rest, setMessages_catch. rules. Qed.

Lemma silent_setMessages_resume key messages s :
  silent sel (setMessages_resume key messages s).
Proof. unfold setMessages_resume, setMessages_rest, setMessages_catch. rules. Qed.

Lemma silent_removeMessages_begin key : silent sel (removeMessages_begin key).
Proof. unfold removeMessages_begin, removeMessages_rest, removeMessages_catch. rules. Qed.

Lemma silent_removeMessages_resume key s : silent sel (removeMessages_resume key s).
Proof. unfold removeMessages_resume, removeMessages_rest, removeMessages_catch. rules. Qed.

Hint Resolve silent_setMessages_begin silent_setMessages_resume
  silent_removeMessages_begin silent_removeMessages_resume : core.

Lemma silent_emit_call e : sel e = false -> silent sel (emit e).
Proof. apply silent_emit. Qed.

Lemma silent_syncMessages : silent sel syncMessages.
Proof.
  unfold syncMessages. rules. apply silent_emit. apply sel_fetch.
Qed.

Lemma silent_clearMessages : silent sel clearMessages.
Proof. unfold clearMessages. rules. Qed.

Lemma silent_dispatchEvent ev : silent sel (dispatchEvent ev).
Proof.
  unfold dispatchEvent, process_all, process_call. rules; apply silent_emit; auto.
Qed.

Hint Resolve silent_dispatchEvent : core.

Lemma silent_analyticsListener payload : silent sel (analyticsListener payload).
Proof. unfold analyticsListener. rules. Qed.

Lemma silent_getPluggable n : silent sel (getPluggable n).
Proof. unfold getPluggable. rules. Qed.

Lemma silent_removePluggable n : silent sel (removePluggable n).
Proof. unfold removePluggable. rules. Qed.
End PipelineSilence.

(** ** The analytics subscription *)

Lemma forget_run {A} (m : M' A) w :
  is_ok (result_of (m w)) = true ->
  forget m w = (Ok tt, world_of (m w), effects_of (m w)).
Proof.
  intros Hok. unfold forget, fmapM. rewrite bind_unfold.
  destruct (m w) as [[[a|?] w1] t1]; [|done].
  unfold result_of, world_of, effects_of. simpl. by rewrite app_nil_r.
Qed.

Lemma hub_listens_app (t1 t2 : list Effect') :
  hub_listens (t1 ++ t2) = hub_listens t1 + hub_listens t2.
Proof. unfold hub_listens. by rewrite List.filter_app, length_app. Qed.

Lemma configure_listens arg w :
  hub_listens (effects_of (configure AWSPinpointProvider arg w)) =
    (if asks_to_listen arg && negb (listeningForAnalyticEvents (this w)) then 1 else 0)
  /\ listeningForAnalyticEvents (this (world_of (configure AWSPinpointProvider arg w))) =
     asks_to_listen arg || listeningForAnalyticEvents (this w).
Proof.
  rewrite configure_run. unfold effects_of at 1, world_of at 1. cbn [fst snd].
  set (w1 := set_config _ w).
  assert (hub_listens (effects_of (addPluggable (Some AWSPinpointProvider) w1)) = 0) as Ha.
  { unfold addPluggable. by destruct (category_ok AWSPinpointProvider). }
  assert (forall (g : Provider' -> Value) (l : list Provider'),
            hub_listens (map (fun p => EProviderConfigure p (g p)) l) = 0) as Hmap.
  { intros g l. by induction l. }
  split.
  - rewrite !hub_listens_app, Hmap.
    destruct (Nat.eqb (length (pluggables (this w))) 0);
      rewrite ?Ha; by destruct (asks_to_listen arg && _).
  - assert (listeningForAnalyticEvents
              (this (if Nat.eqb (length (pluggables (this w))) 0
                     then world_of (addPluggable (Some AWSPinpointProvider) w1)
                     else w1))
            = listeningForAnalyticEvents (this w)) as Hl.
    { destruct (Nat.eqb (length (pluggables (this w))) 0); [|done].
      by rewrite (addPluggable_keeps_listening _ w1). }
    destruct (asks_to_listen arg), (listeningForAnalyticEvents (this w)) eqn:Hw;
      simpl; by rewrite ?Hl, ?Hw.
Qed.

#[local] Hint Resolve silent_syncMessages silent_clearMessages silent_dispatchEvent
  silent_analyticsListener silent_getPluggable silent_removePluggable : core.

Lemma call_silent_listen c :
  (forall arg, c <> CallConfigure arg) -> silent is_listen (call AWSPinpointProvider c).
Proof.
  intros Hc. destruct c; try (by destruct (Hc arg)); simpl;
    unfold forget, addPluggable, notifyMessageDisplayed, notifyMessageDismissed,
      notifyMessageActionTaken; rules.
Qed.

Lemma call_keeps_listening c :
  (forall arg, c <> CallConfigure arg) ->
  keeps (fun w => listeningForAnalyticEvents (this w)) (call AWSPinpointProvider c).
Proof.
  intros Hc. destruct c; try (by destruct (Hc arg)); simpl;
    unfold forget, addPluggable, removePluggable, log_debug, notifyMessageDisplayed,
      notifyMessageDismissed, notifyMessageActionTaken; rules.
Qed.

Lemma call_listens c w :
  hub_listens (effects_of (call AWSPinpointProvider c w)) =
    (if negb (listeningForAnalyticEvents (this w))
        && listeningForAnalyticEvents (this (world_of (call AWSPinpointProvider c w)))
     then 1 else 0)
  /\ (listeningForAnalyticEvents (this w) = true ->
      listeningForAnalyticEvents (this (world_of (call AWSPinpointProvider c w))) = true).
Proof.
  assert ((exists arg, c = CallConfigure arg) \/ forall arg, c <> CallConfigure arg)
    as [[arg ->]|Hc] by (destruct c; eauto).
  - assert (effects_of (call AWSPinpointProvider (CallConfigure arg) w)
            = effects_of (configure AWSPinpointProvider arg w)
            /\ world_of (call AWSPinpointProvider (CallConfigure arg) w)
               = world_of (configure AWSPinpointProvider arg w)) as [-> ->]
      by (simpl; by rewrite forget_run by apply configure_total).
    destruct (configure_listens arg w) as [-> ->].
    by destruct (asks_to_listen arg), (listeningForAnalyticEvents (this w)).
  - pose proof (call_silent_listen c Hc w) as Hs.
    pose proof (call_keeps_listening c Hc w) as Hk. simpl in Hk.
    unfold hub_listens. rewrite Hs, Hk.
    by destruct (listeningForAnalyticEvents (this w)).
Qed.

(** X8.  Over any sequence of calls, from any state, [Hub.listen] is called
    at most once, and only on the ["analytics"] channel by [configure]: it
    is called exactly once if the instance was not listening before and is
    listening after, and never otherwise; an instance that listens never
    stops listening. *)
Theorem hub_is_subscribed_at_most_once calls w :
  let w' := (run_calls AWSPinpointProvider calls w).1 in
  let t := (run_calls AWSPinpointProvider calls w).2 in
  hub_listens t =
    (if negb (listeningForAnalyticEvents (this w))
        && listeningForAnalyticEvents (this w')
     then 1 else 0)
  /\ (listeningForAnalyticEvents (this w) = true ->
      listeningForAnalyticEvents (this w') = true).
Proof.
  cbv zeta. revert w. induction calls as [|c calls IH]; intros w.
  - simpl. split; [|done]. by destruct (listeningForAnalyticEvents (this w)).
  - cbn [run_calls]. cbv zeta.
    destruct (call_listens c w) as [Hc Hm].
    destruct (IH (world_of (call AWSPinpointProvider c w))) as [IHc IHm].
    destruct (run_calls AWSPinpointProvider calls _) as [w' t]. simpl in *.
    rewrite hub_listens_app, Hc, IHc. split.
    + destruct (listeningForAnalyticEvents (this w)); simpl.
      * rewrite Hm by done. done.
      * destruct (listeningForAnalyticEvents
                    (this (world_of (call AWSPinpointProvider c w)))); simpl.
        -- by rewrite IHm.
        -- by destruct (listeningForAnalyticEvents (this w')).
    + intros Hw. apply IHm, Hm, Hw.
Qed.

(** ** Once the storage is synced *)

Lemma quiet_ret {A} (a : A) : synced_quiet (ret a).
Proof. by intros w Hw. Qed.

Lemma quiet_throw {A} err : synced_quiet (throw (A := A) err).
Proof. by intros w Hw. Qed.

Lemma quiet_gets {A} (g : World' -> A) : synced_quiet (gets g).
Proof. by intros w Hw. Qed.

Lemma quiet_lift {A} (r : outcome A) : synced_quiet (lift r).
Proof. by intros w Hw. Qed.

Lemma quiet_emit e : is_sync e = false -> synced_quiet (emit e).
Proof. intros He w Hw. unfold sync_calls. simpl. by rewrite He. Qed.

Lemma quiet_modify g :
  (forall w, storageSynced (this w) = true -> storageSynced (this (g w)) = true) ->
  synced_quiet (modify g).
Proof. intros Hg w Hw. split; [done | by apply Hg]. Qed.

Lemma quiet_bind {A B} (m : M' A) (k : A -> M' B) :
  synced_quiet m -> (forall a, synced_quiet (k a)) -> synced_quiet (bind m k).
Proof.
  intros Hm Hk w Hw. rewrite bind_unfold. destruct (Hm w Hw) as [Hc Hf].
  destruct (m w) as [[[a|err] w1] t1]; [|done].
  unfold effects_of, world_of in *. simpl in *.
  destruct (Hk a w1 Hf) as [Hc' Hf']. unfold effects_of, world_of in *.
  by rewrite sync_calls_app, Hc, Hc'.
Qed.

Lemma quiet_try_catch {A} (m : M' A) (k : string -> M' A) :
  synced_quiet m -> (forall err, synced_quiet (k err)) -> synced_quiet (try_catch m k).
Proof.
  intros Hm Hk w Hw. rewrite try_catch_unfold. destruct (Hm w Hw) as [Hc Hf].
  destruct (m w) as [[[a|err] w1] t1]; [done|].
  unfold effects_of, world_of in *. simpl in *.
  destruct (Hk err w1 Hf) as [Hc' Hf']. unfold effects_of, world_of in *.
  by rewrite sync_calls_app, Hc, Hc'.
Qed.

Lemma quiet_fmapM {A B} (g : A -> B) (m : M' A) : synced_quiet m -> synced_quiet (fmapM g m).
Proof. intros Hm. apply quiet_bind; [done | intros; apply quiet_ret]. Qed.

Lemma quiet_mapM {A B} (k : A -> M' B) (xs : list A) :
  (forall x, synced_quiet (k x)) -> synced_quiet (mapM k xs).
Proof.
  intros Hk. induction xs as [|x xs IH]; simpl; [apply quiet_ret|].
  apply quiet_bind; [done|]. intros y.
  apply quiet_bind; [done|]. intros ys. apply quiet_ret.
Qed.

(** The test [if (!this.storageSynced)] keeps the sync step away. *)
Lemma quiet_unless_synced {A} (m1 m2 : M' A) :
  synced_quiet m2 ->
  synced_quiet (let* synced := gets (fun w => storageSynced (this w)) in
                if negb synced then m1 else m2).
Proof. intros Hm w Hw. rewrite bind_gets, Hw. by apply Hm. Qed.

Lemma quiet_storage_getItem storage key : synced_quiet (storage_getItem storage key).
Proof.
  intros w Hw. destruct storage; try done. unfold storage_getItem, effects_of, world_of.
  by destruct (getItem key (stores w h)) as [r s'].
Qed.

Lemma quiet_storage_setItem storage key value :
  synced_quiet (storage_setItem storage key value).
Proof.
  destruct storage; simpl;
    try solve [repeat first [apply quiet_bind | apply quiet_lift | apply quiet_throw
                            | progress intros]].
  apply quiet_bind; [apply quiet_lift|]. intros v w Hw. unfold effects_of, world_of.
  by destruct (setItem key v (stores w h)) as [r s'].
Qed.

Lemma quiet_storage_removeItem storage key : synced_quiet (storage_removeItem storage key).
Proof.
  intros w Hw. destruct storage; try done.
  unfold storage_removeItem, effects_of, world_of.
  by destruct (removeItem key (stores w h)) as [r s'].
Qed.

Ltac quiet_rules :=
  repeat
    (first
      [ progress intros
      | solve [auto]
      | progress cbv zeta
      | apply quiet_unless_synced
      | apply quiet_ret | apply quiet_throw | apply quiet_gets | apply quiet_lift
      | apply quiet_emit; reflexivity
      | apply quiet_modify; solve [auto]
      | apply quiet_bind | apply quiet_try_catch | apply quiet_fmapM | apply quiet_mapM
      | apply quiet_storage_getItem | apply quiet_storage_setItem
      | apply quiet_storage_removeItem
      | match goal with
        | |- synced_quiet (match ?x with _ => _ end) => destruct x
        | |- synced_quiet (if ?x then _ else _) => destruct x
        end ]).

Lemma quiet_syncStorage_resume a : synced_quiet (syncStorage_resume a).
Proof. unfold syncStorage_resume, log_error. quiet_rules. Qed.

#[local] Hint Resolve quiet_syncStorage_resume : core.

Lemma quiet_getMessages_begin key : synced_quiet (getMessages_begin key).
Proof.
  unfold getMessages_begin, getMessages_rest, getMessages_catch, log_error. quiet_rules.
Qed.

Lemma quiet_getMessages_resume key s : synced_quiet (getMessages_resume key s).
Proof.
  unfold getMessages_resume, getMessages_rest, getMessages_catch, log_error. quiet_rules.
Qed.

Lemma quiet_setMessages_begin key messages : synced_quiet (setMessages_begin key messages).
Proof.
  unfold setMessages_begin, setMessages_rest, setMessages_catch, log_error. quiet_rules.
Qed.

Lemma quiet_setMessages_resume key messages s :
  synced_quiet (setMessages_resume key messages s).
Proof.
  unfold setMessages_resume, setMessages_rest, setMessages_catch, log_error. quiet_rules.
Qed.

Lemma quiet_removeMessages_begin key : synced_quiet (removeMessages_begin key).
Proof.
  unfold removeMessages_begin, removeMessages_rest, removeMessages_catch, log_error.
  quiet_rules.
Qed.

Lemma quiet_removeMessages_resume key s : synced_quiet (removeMessages_resume key s).
Proof.
  unfold removeMessages_resume, removeMessages_rest, removeMessages_catch, log_error.
  quiet_rules.
Qed.

#[local] Hint Resolve quiet_getMessages_begin quiet_getMessages_resume
  quiet_setMessages_begin quiet_setMessages_resume
  quiet_removeMessages_begin quiet_removeMessages_resume : core.

Lemma quiet_syncMessages : synced_quiet syncMessages.
Proof. unfold syncMessages. quiet_rules. Qed.

Lemma quiet_clearMessages : synced_quiet clearMessages.
Proof. unfold clearMessages, log_debug. quiet_rules. Qed.

Lemma quiet_dispatchEvent ev : synced_quiet (dispatchEvent ev).
Proof. unfold dispatchEvent, begin_reads, resume_reads, process_all. quiet_rules. Qed.

#[local] Hint Resolve quiet_dispatchEvent : core.

Lemma quiet_addPluggable pluggable : synced_quiet (addPluggable pluggable).
Proof. unfold addPluggable. quiet_rules. Qed.

Lemma quiet_spread v : synced_quiet (spread v).
Proof. destruct v; simpl; quiet_rules. Qed.

#[local] Hint Resolve quiet_addPluggable quiet_spread : core.

Lemma quiet_configure arg : synced_quiet (configure AWSPinpointProvider arg).
Proof. unfold configure, merged_config, log_debug. quiet_rules. Qed.

Lemma quiet_call c : synced_quiet (call AWSPinpointProvider c).
Proof.
  destruct c; simpl;
    unfold forget, getPluggable, removePluggable, analyticsListener, log_debug,
      notifyMessageDisplayed, notifyMessageDismissed, notifyMessageActionTaken;
    quiet_rules;
    first [apply quiet_configure | apply quiet_syncMessages | apply quiet_clearMessages].
Qed.

(** X9.  Once the flag is set, nothing the host or the Hub does makes the
    instance call [sync] again, and the flag is never cleared: over any
    sequence of calls from a state with the flag set there is no call to
    [sync] and the flag is still set at the end.  This holds also across a
    [configure] that installs another storage object, which is therefore
    never synced. *)
Theorem synced_instance_never_syncs_again calls w :
  storageSynced (this w) = true ->
  sync_calls (run_calls AWSPinpointProvider calls w).2 = 0
  /\ storageSynced (this (run_calls AWSPinpointProvider calls w).1) = true.
Proof.
  revert w. induction calls as [|c calls IH]; intros w Hw; [done|].
  cbn [run_calls]. cbv zeta.
  destruct (quiet_call c w Hw) as [Hc Hf].
  destruct (IH _ Hf) as [IHc IHf].
  destruct (run_calls AWSPinpointProvider calls _) as [w' t]. simpl in *.
  by rewrite sync_calls_app, Hc, IHc.
Qed.

(** ** The fan-out operations *)

Lemma mapM_inv {A B} (k : A -> M' B) (I : World' -> Prop) (Q : A -> Prop)
    (P : B -> Prop) (sel : Effect' -> bool) (g : A -> list Effect') :
  (forall x w, Q x -> I w ->
     exists y w' t, k x w = (Ok y, w', t) /\ I w' /\ P y /\ List.filter sel t = g x) ->
  forall xs w, Forall Q xs -> I w ->
    exists ys w' t,
      mapM k xs w = (Ok ys, w', t) /\ I w' /\ Forall P ys
      /\ List.filter sel t = concat (map g xs).
Proof.
  intros Hk xs. induction xs as [|x xs IH]; intros w HQ Hw.
  - exists [], w, []. by repeat split.
  - pose proof (Forall_inv HQ) as Hx. pose proof (Forall_inv_tail HQ) as Hxs.
    destruct (Hk x w Hx Hw) as (y & w1 & t1 & Hrun & Hw1 & Hy & Ht1).
    destruct (IH w1 Hxs Hw1) as (ys & w2 & t2 & Hrun' & Hw2 & Hys & Ht2).
    exists (y :: ys), w2, (t1 ++ t2). cbn [mapM].
    rewrite bind_unfold, Hrun. cbv beta iota. rewrite bind_unfold, Hrun'.
    unfold result_of, world_of, effects_of. simpl. rewrite app_nil_r.
    repeat split; [done | by constructor |].
    by rewrite List.filter_app, Ht1, Ht2.
Qed.

Lemma first_rejection_map {A B} (rs : list (outcome A)) (rs' : list (outcome B)) :
  map rejection rs = map rejection rs' -> first_rejection rs = first_rejection rs'.
Proof.
  unfold first_rejection. revert rs'.
  induction rs as [|r rs IH]; intros [|r' rs']; try done.
  simpl. intros [= Hr Hrs]. specialize (IH rs' Hrs).
  destruct r, r'; simpl in *; try done; congruence.
Qed.

Lemma fetch_all_run (ps : list Provider') w :
  mapM (fun p => emit (EGetInAppMessages p) >> ret (p, getInAppMessages p)) ps w =
  (Ok (map (fun p => (p, getInAppMessages p)) ps), w, map EGetInAppMessages ps).
Proof.
  induction ps as [|p ps IH]; [done|].
  cbn [mapM]. rewrite bind_unfold.
  change ((emit (EGetInAppMessages p) >> ret (p, getInAppMessages p)) w)
    with (Ok (p, getInAppMessages p), w, [EGetInAppMessages p]).
  cbv beta iota. rewrite bind_unfold, IH.
  unfold result_of, world_of, effects_of. simpl. by rewrite app_nil_r.
Qed.

Lemma syncMessages_begun_rejections fetched w :
  exists begun w' t,
    mapM (fun '(p, r) =>
            match r with
            | Ok messages =>
                let* s := setMessages_begin (storage_key p) messages in
                ret (Ok (p, messages, s))
            | Throw err => ret (Throw err)
            end) fetched w = (Ok begun, w', t)
    /\ map rejection begun = map (fun x : Provider' * _ => rejection x.2) fetched.
Proof.
  revert w. induction fetched as [|[p r] fetched IH]; intros w.
  - by exists [], w, [].
  - cbn [mapM]. rewrite bind_unfold.
    assert (exists b w1 t1,
              match r with
              | Ok messages =>
                  let* s := setMessages_begin (storage_key p) messages in
                  ret (Ok (p, messages, s))
              | Throw err => ret (Throw err)
              end w = (Ok b, w1, t1) /\ rejection b = rejection r)
      as (b & w1 & t1 & -> & Hb).
    { destruct r as [messages|err]; [|by eexists _, _, _].
      rewrite bind_unfold.
      pose proof (setMessages_begin_total (storage_key p) messages w) as Ht.
      destruct (setMessages_begin _ messages w) as [[[s0|?] w1] t1]; [|done].
      by eexists _, _, _. }
    cbv beta iota. destruct (IH w1) as (begun & w2 & t2 & Hrun & Hrej).
    rewrite bind_unfold, Hrun. eexists _, _, _. split; [done|]. simpl. by rewrite Hb, Hrej.
Qed.

Lemma syncMessages_done_rejections begun w :
  exists done w' t,
    mapM (fun b : outcome (Provider' * option (list Message) * Suspended unit) =>
            match b with
            | Ok (p, messages, s) =>
                fmapM Ok (setMessages_resume (storage_key p) messages s)
            | Throw err => ret (Throw err)
            end) begun w = (Ok done, w', t)
    /\ map rejection done = map rejection begun.
Proof.
  revert w. induction begun as [|b begun IH]; intros w.
  - by exists [], w, [].
  - cbn [mapM]. rewrite bind_unfold.
    assert (exists d w1 t1,
              match b with
              | Ok (p, messages, s) =>
                  fmapM Ok (setMessages_resume (storage_key p) messages s)
              | Throw err => ret (Throw err)
              end w = (Ok d, w1, t1) /\ rejection d = rejection b)
      as (d & w1 & t1 & -> & Hd).
    { destruct b as [[[p messages] s0]|err]; [|by eexists _, _, _].
      unfold fmapM. rewrite bind_unfold.
      pose proof (setMessages_resume_total (storage_key p) messages s0 w) as Ht.
      destruct (setMessages_resume _ messages s0 w) as [[[[]|?] w1] t1]; [|done].
      by eexists _, _, _. }
    cbv beta iota. destruct (IH w1) as (done & w2 & t2 & Hrun & Hrej).
    rewrite bind_unfold, Hrun. eexists _, _, _. split; [done|]. simpl. by rewrite Hd, Hrej.
Qed.

(** [syncMessages] in terms of its two passes over the branches, taken in
    the order in which the fetches settle. *)
Lemma syncMessages_run w :
  let ps := pluggables (this w) in
  let fetched := settle_order (map (fun p => (p, getInAppMessages p)) ps) in
  exists begun w1 t1 done w2 t2,
    mapM (fun '(p, r) =>
            match r with
            | Ok messages =>
                let* s := setMessages_begin (storage_key p) messages in
                ret (Ok (p, messages, s))
            | Throw err => ret (Throw err)
            end) fetched w = (Ok begun, w1, t1)
    /\ mapM (fun b : outcome (Provider' * option (list Message) * Suspended unit) =>
               match b with
               | Ok (p, messages, s) =>
                   fmapM Ok (setMessages_resume (storage_key p) messages s)
               | Throw err => ret (Throw err)
               end) begun w1 = (Ok done, w2, t2)
    /\ first_rejection done = first_rejection (map snd fetched)
    /\ syncMessages w =
       (Promise_all_void done, w2, map EGetInAppMessages ps ++ t1 ++ t2).
Proof.
  cbv zeta. set (ps := pluggables (this w)).
  set (fetched := settle_order (map (fun p => (p, getInAppMessages p)) ps)).
  destruct (syncMessages_begun_rejections fetched w)
    as (begun & w1 & t1 & Hbegun & Hrej1).
  destruct (syncMessages_done_rejections begun w1) as (done & w2 & t2 & Hdone & Hrej2).
  exists begun, w1, t1, done, w2, t2. split; [done|]. split; [done|]. split.
  { apply first_rejection_map. by rewrite Hrej2, Hrej1, map_map. }
  unfold syncMessages. rewrite bind_gets. fold ps.
  rewrite bind_unfold, fetch_all_run. cbv beta iota. fold fetched.
  rewrite bind_unfold, Hbegun. cbv beta iota.
  rewrite bind_unfold, Hdone. cbv beta iota.
  unfold lift, result_of, world_of, effects_of. simpl. by rewrite app_nil_r.
Qed.

Lemma settled_fetches (ps : list Provider') :
  map snd (settle_order (map (fun p => (p, getInAppMessages p)) ps))
  ≡ₚ map getInAppMessages ps.
Proof.
  rewrite settle_order_permutation, map_map. simpl. done.
Qed.

Lemma filter_fetch_calls (ps : list Provider') :
  List.filter is_fetch (map EGetInAppMessages ps) = map EGetInAppMessages ps.
Proof. induction ps as [|p ps IH]; [done|]. simpl. by rewrite IH. Qed.


Lemma setMessages_begin_synced key messages w h :
  synced_on h w ->
  exists w' t,
    setMessages_begin key messages w = (Ok (Finished tt), w', t)
    /\ synced_on h w'
    /\ List.filter is_storage_write t =
       match messages with
       | Some ms =>
           match JSON_stringify ms with
           | Ok s => [ESetItem h key s]
           | Throw _ => []
           end
       | None => []
       end.
Proof.
  intros [Hflag Hst]. destruct messages as [ms|]; [|by exists w, []].
  unfold setMessages_begin. rewrite try_catch_unfold, bind_gets, Hflag. cbn [negb].
  unfold fmapM, setMessages_rest. rewrite bind_unfold, bind_gets, Hst.
  unfold storage_setItem. rewrite bind_unfold. unfold lift at 1.
  destruct (JSON_stringify ms) as [s|err]; cbv beta iota.
  - destruct (setItem key s (stores w h)) as [[[]|err] s'];
      unfold result_of, world_of, effects_of, setMessages_catch, bind, log_error,
        emit, ret; simpl; by eexists _, _.
  - unfold result_of, world_of, effects_of, setMessages_catch, bind, log_error,
      emit, ret; simpl. by eexists _, _.
Qed.

Lemma removeMessages_begin_synced key w h :
  synced_on h w ->
  exists w' t,
    removeMessages_begin key w = (Ok (Finished tt), w', t)
    /\ synced_on h w'
    /\ List.filter is_storage_write t = [ERemoveItem h key].
Proof.
  intros [Hflag Hst].
  unfold removeMessages_begin. rewrite try_catch_unfold, bind_gets, Hflag. cbn [negb].
  unfold fmapM, removeMessages_rest. rewrite bind_unfold, bind_gets, Hst.
  unfold storage_removeItem.
  destruct (removeItem key (stores w h)) as [[[]|err] s'];
    unfold result_of, world_of, effects_of, removeMessages_catch, bind, log_error,
      emit, ret; simpl; by eexists _, _.
Qed.

Lemma omap_concat {A B} (f : A -> option B) (l : list A) :
  concat (map (fun x => match f x with Some y => [y] | None => [] end) l) = omap f l.
Proof. induction l as [|x l IH]; [done|]. simpl. rewrite IH. by destruct (f x). Qed.


Lemma clearMessages_total : total clearMessages.
Proof. unfold clearMessages, log_debug. rules. Qed.

(** X12.  [clearMessages] never rejects, whatever the storage does.  On an
    instance whose flag is set and whose storage is a storage object it
    calls [removeItem] once per registered provider, in registry order, with
    the provider's name followed by ["_inAppMessages"], and writes nothing. *)
Theorem clearMessages_removes_every_slot w :
  is_ok (result_of (clearMessages w)) = true
  /\ (forall h,
        storageSynced (this w) = true ->
        storage_of w = VStorage h ->
        List.filter is_storage_write (effects_of (clearMessages w)) =
          map (fun p => ERemoveItem h (storage_key p)) (pluggables (this w))).
Proof.
  split; [apply clearMessages_total|]. intros h Hflag Hst.
  unfold clearMessages, log_debug.
  rewrite effects_of_bind. unfold emit at 1. cbv beta iota.
  rewrite bind_gets. set (ps := pluggables (this w)).
  destruct (mapM_inv
              (fun p => let* s := removeMessages_begin (storage_key p) in ret (p, s))
              (synced_on h) (fun _ => True)
              (fun b : Provider' * Suspended unit => b.2 = Finished tt)
              is_storage_write (fun p => [ERemoveItem h (storage_key p)]))
    with (xs := ps) (w := w)
    as (begun & w1 & t1 & Hbegun & Hw1 & Hfin & Ht1).
  { intros p w0 _ Hw0.
    destruct (removeMessages_begin_synced (storage_key p) w0 h Hw0)
      as (w' & t & Hrun & Hw' & Ht).
    eexists _, _, _. rewrite bind_unfold, Hrun. split; [done|]. split; [done|].
    split; [done|]. unfold effects_of. simpl. by rewrite app_nil_r, Ht. }
  { by apply Forall_forall. }
  { done. }
  destruct (mapM_inv
              (fun '(p, s) => removeMessages_resume (storage_key p) s)
              (fun _ => True)
              (fun b : Provider' * Suspended unit => b.2 = Finished tt)
              (fun _ => True) is_storage_write (fun _ => []))
    with (xs := begun) (w := w1)
    as (done & w2 & t2 & Hdone & _ & _ & Ht2).
  { intros [p s0] w0 Hb _. simpl in Hb. subst s0. by exists tt, w0, []. }
  { done. }
  { done. }
  rewrite effects_of_bind, Hbegun, effects_of_bind, Hdone.
  unfold effects_of, ret. simpl.
  rewrite !List.filter_app, Ht1, Ht2. simpl.
  assert (concat (map (fun _ : Provider' * Suspended unit => @nil Effect') begun) = [])
    as -> by (clear; by induction begun).
  rewrite app_nil_r. clear. induction ps as [|p ps IH]; [done|]. simpl. by rewrite IH.
Qed.

(** X13.  [dispatchEvent] rejects only with the rejection of a call of
    [processInAppMessages] that it made, and it resolves exactly when every
    call it made resolves; a failure of the storage never makes it reject.
    It only reads: it calls neither [setItem] nor [removeItem], and it
    leaves the registry and the configuration as they were. *)
Theorem dispatchEvent_rejects_only_with_a_provider ev w :
  (forall err,
     result_of (dispatchEvent ev w) = Throw err ->
     exists p messages,
       In (EProcessInAppMessages p messages ev) (effects_of (dispatchEvent ev w))
       /\ processInAppMessages p messages ev = Throw err)
  /\ (result_of (dispatchEvent ev w) = Ok tt <->
      forall p messages,
        In (EProcessInAppMessages p messages ev) (effects_of (dispatchEvent ev w)) ->
        is_ok (processInAppMessages p messages ev) = true)
  /\ List.filter is_storage_write (effects_of (dispatchEvent ev w)) = []
  /\ pluggables (this (world_of (dispatchEvent ev w))) = pluggables (this w)
  /\ config (this (world_of (dispatchEvent ev w))) = config (this w).
Proof.
  destruct (reads_run (pluggables (this w)) w)
    as (begun & w0 & t0 & read & w1 & t1 & Hbegun & Hread & Hb & Hr).
  pose proof (keeps_dispatchEvent (fun w => pluggables (this w))
                ltac:(done) ltac:(done) ev w) as Hregistry.
  pose proof (keeps_dispatchEvent (fun w => config (this w))
                ltac:(done) ltac:(done) ev w) as Hconfig.
  revert Hregistry Hconfig.
  rewrite (dispatchEvent_run ev w _ _ _ _ _ _ Hbegun Hread). cbv zeta.
  set (calls := evaluation_order begun read).
  assert (settle_order (map (process_result ev) calls) ≡ₚ map (process_result ev) calls)
    as Hsettled by apply settle_order_permutation.
  destruct (reads_silent is_process _ _ _ _ _ _ _ _ ltac:(done) ltac:(done) ltac:(done)
              Hbegun Hread) as [Hp0 Hp1].
  destruct (reads_silent is_storage_write _ _ _ _ _ _ _ _
              ltac:(done) ltac:(done) ltac:(done) Hbegun Hread) as [Hw0 Hw1].
  destruct (process_calls_only ev calls) as (Hcp & _ & Hcw).
  assert (forall t (x : Provider' * option (list Message)),
            In x calls -> In (process_call ev x) (t0 ++ t1 ++ map (process_call ev) calls ++ t))
    as Hmade.
  { intros t x Hx. apply in_or_app. right. apply in_or_app. right.
    apply in_or_app. left. by apply in_map. }
  assert (forall t p messages,
            List.filter is_process t = [] ->
            In (EProcessInAppMessages p messages ev)
               (t0 ++ t1 ++ map (process_call ev) calls ++ t) ->
            In (p, messages) calls) as Hcalled.
  { intros t p messages Ht Hin.
    assert (In (EProcessInAppMessages p messages ev)
              (List.filter is_process (t0 ++ t1 ++ map (process_call ev) calls ++ t)))
      as Hin' by (by apply filter_In).
    rewrite !List.filter_app, Hp0, Hp1, Hcp, Ht, app_nil_r in Hin'. simpl in Hin'.
    apply in_map_iff in Hin' as ([p' ms'] & [= -> ->] & Hx). done. }
  unfold Promise_all.
  destruct (first_rejection _) as [e|] eqn:Hfirst; unfold result_of, effects_of, world_of;
    cbn [fst snd]; intros Hregistry Hconfig.
  - apply (first_rejection_permutation _ _ _ Hsettled) in Hfirst.
    apply list_elem_of_In, in_map_iff in Hfirst as ([p messages] & Hthrow & Hx).
    split; [|split; [|split; [|done]]].
    + intros err [= <-]. exists p, messages. split; [|done].
      rewrite <- (app_nil_r (map _ calls)). by apply (Hmade [] (p, messages)).
    + split; [done|]. intros Hok.
      specialize (Hok p messages). unfold process_result in Hthrow. simpl in Hthrow.
      rewrite Hthrow in Hok. discriminate Hok.
      rewrite <- (app_nil_r (map _ calls)). by apply (Hmade [] (p, messages)).
    + by rewrite !List.filter_app, Hw0, Hw1, Hcw.
  - pose proof (proj1 (first_rejection_none _ _ Hsettled) Hfirst) as Hok.
    split; [done|]. split; [|split; [|done]].
    + split; [|done]. intros _ p messages Hin.
      apply (Hok (process_result ev (p, messages))).
      apply list_elem_of_In, in_map. apply (Hcalled _ p messages) in Hin; [done|].
      by destruct (concat _).
    + rewrite !List.filter_app, Hw0, Hw1, Hcw. by destruct (concat _).
Qed.

(** ** Cache slots *)

Lemma string_length_app (s t : string) :
  String.length (s +:+ t) = String.length s + String.length t.
Proof. induction s as [|c s IH]; [done|]. simpl. by rewrite IH. Qed.

Lemma string_app_inj_r (s1 s2 t : string) : s1 +:+ t = s2 +:+ t -> s1 = s2.
Proof.
  revert s2. induction s1 as [|c s1 IH]; intros [|c' s2] Heq; [done| | |].
  - apply (f_equal String.length) in Heq.
    change (String.length t = S (String.length (s2 +:+ t))) in Heq.
    rewrite string_length_app in Heq. lia.
  - apply (f_equal String.length) in Heq.
    change (S (String.length (s1 +:+ t)) = String.length t) in Heq.
    rewrite string_length_app in Heq. lia.
  - simpl in Heq. injection Heq as -> Heq. f_equal. by apply IH.
Qed.

(** X14.  Two providers share a cache slot exactly when they have the same
    name: the storage key determines the provider name and conversely (so
    providers registered twice under one name overwrite each other's
    messages, and providers with different names never do). *)
Theorem storage_key_identifies_the_name p (q : Provider') :
  storage_key p = storage_key q <-> getProviderName p = getProviderName q.
Proof.
  unfold storage_key. split; [apply string_app_inj_r | by intros ->].
Qed.

Lemma guarded_remove_run key w h :
  storage_of w = VStorage h ->
  guarded_remove key w =
  match removeItem key (stores w h) with
  | (Ok _, s') => (Ok tt, set_store h s' w, [ERemoveItem h key])
  | (Throw _, s') =>
      (Ok tt, set_store h s' w,
       [ERemoveItem h key; ELogError "Failed to remove in-app messages from storage"])
  end.
Proof.
  intros Hst.
  unfold guarded_remove, removeMessages_rest, removeMessages_catch, try_catch, bind, gets,
    log_error, emit, ret.
  rewrite Hst. unfold storage_removeItem.
  by destruct (removeItem key (stores w h)) as [[[]|err] s'].
Qed.

Lemma syncIfNeeded_sets_flag w h :
  storage_of w = VStorage h ->
  (storageSynced (this w) = false ->
   forall r s', sync (stores w h) = Some (r, s') -> is_ok r = true) ->
  storageSynced (this (world_of (syncIfNeeded w))) = true.
Proof.
  intros Hst Hsync. destruct (storageSynced (this w)) eqn:Hw.
  - by rewrite (syncIfNeeded_synced w Hw).
  - rewrite (syncIfNeeded_unsynced w Hw).
    destruct (sync (stores w h)) as [[[[]|err] s']|] eqn:Hsy.
    + by rewrite (syncStorage_resolved w h s' Hst Hsy).
    + by specialize (Hsync eq_refl _ _ eq_refl).
    + by rewrite (syncStorage_without_sync w h Hst Hsy).
Qed.

Lemma read_after_store key w h st2 st3 (stored : option string) :
  storage_of w = VStorage h ->
  storageSynced (this w) = true ->
  getItem key st2 = (Ok stored, st3) ->
  getMessages key (set_store h st2 w) =
  guarded_read key (set_store h st2 w).
Proof.
  intros Hst Hflag Hget.
  rewrite getMessages_alone, bind_unfold, (syncIfNeeded_synced (set_store h st2 w)) by done.
  cbv beta iota. symmetry. apply triple_eta.
Qed.

(** X15.  Clearing a cache slot and then reading it gives the empty
    sequence, provided no storage operation fails (the sync step, if it
    calls [sync], is not rejected; [removeItem] returns) and the storage
    then holds nothing under the key. *)
Theorem cache_clear_then_read key w h st2 st3 :
  storage_of w = VStorage h ->
  (storageSynced (this w) = false ->
   forall r s', sync (stores w h) = Some (r, s') -> is_ok r = true) ->
  removeItem key (stores (world_of (syncIfNeeded w)) h) = (Ok tt, st2) ->
  getItem key st2 = (Ok None, st3) ->
  result_of ((removeMessages key >> getMessages key) w) = Ok (Some []).
Proof.
  intros Hst Hsync Hrem Hget.
  pose proof (syncIfNeeded_sets_flag w h Hst Hsync) as Hflag.
  rewrite result_of_bind, removeMessages_alone, bind_unfold, syncIfNeeded_run.
  cbv beta iota. set (w1 := world_of (syncIfNeeded w)) in *.
  assert (storage_of w1 = VStorage h) as Hst1
    by (unfold w1; by rewrite syncIfNeeded_storage_of).
  rewrite (guarded_remove_run key w1 h Hst1), Hrem.
  unfold result_of at 1, world_of at 1. cbn [fst snd].
  rewrite (read_after_store key w1 h st2 st3 None) by done.
  rewrite (guarded_read_run key (set_store h st2 w1) h) by done.
  simpl. by rewrite fn_lookup_insert, Hget.
Qed.

(** ** From [syncMessages] to [dispatchEvent] *)

Lemma syncMessages_single p messages w :
  pluggables (this w) = [p] ->
  getInAppMessages p = Ok messages ->
  world_of (syncMessages w) = world_of (setMessages (storage_key p) messages w).
Proof.
  intros Hps Hfetch.
  destruct (syncMessages_run w)
    as (begun & w1 & t1 & done & w2 & t2 & Hbegun & Hdone & _ & ->).
  rewrite Hps in Hbegun. cbn [map] in Hbegun.
  assert (settle_order [(p, getInAppMessages p)] = [(p, getInAppMessages p)]) as Hone
    by apply Permutation_singleton_r, settle_order_permutation.
  rewrite Hone in Hbegun. cbn [mapM] in Hbegun. rewrite Hfetch in Hbegun.
  unfold setMessages. rewrite world_of_bind.
  pose proof (setMessages_begin_total (storage_key p) messages w) as Hb.
  rewrite bind_unfold, bind_unfold in Hbegun.
  destruct (setMessages_begin (storage_key p) messages w) as [[[s0|err] wb] tb]; [|done].
  unfold ret, bind, result_of, world_of, effects_of in Hbegun. simpl in Hbegun.
  injection Hbegun as <- <- <-.
  cbn [mapM] in Hdone. unfold fmapM in Hdone.
  pose proof (setMessages_resume_total (storage_key p) messages s0 wb) as Hr.
  rewrite bind_unfold, bind_unfold in Hdone.
  destruct (setMessages_resume (storage_key p) messages s0 wb) as [[[[]|err] wr] tr];
    [|done].
  unfold ret, bind, result_of, world_of, effects_of in Hdone. simpl in Hdone.
  by injection Hdone as <- <- <-.
Qed.

(** With one registered provider, [dispatchEvent] calls it with what
    [getMessages], run alone, resolves to. *)
Lemma dispatchEvent_single ev p messages w :
  pluggables (this w) = [p] ->
  result_of (getMessages (storage_key p) w) = Ok messages ->
  List.filter is_process (effects_of (dispatchEvent ev w)) =
  [EProcessInAppMessages p messages ev].
Proof.
  intros Hps Hget.
  destruct (reads_run (pluggables (this w)) w)
    as (begun & w0 & t0 & read & w1 & t1 & Hbegun & Hread & Hb & Hr).
  rewrite (dispatchEvent_run ev w _ _ _ _ _ _ Hbegun Hread). cbv zeta.
  destruct (reads_silent is_process _ _ _ _ _ _ _ _ ltac:(done) ltac:(done) ltac:(done)
              Hbegun Hread) as [Hp0 Hp1].
  rewrite Hps in *.
  destruct begun as [|[p0 s0] [|]]; try done. injection Hb as ->.
  destruct read as [|[p1 m1] [|]]; try done. injection Hr as ->.
  assert (m1 = messages) as ->.
  { revert Hget. unfold getMessages. rewrite result_of_bind.
    unfold begin_reads in Hbegun. cbn [mapM] in Hbegun.
    unfold bind at 1 2, ret in Hbegun.
    destruct (getMessages_begin (storage_key p) w) as [[[s|err] wb] tb]; [|done].
    injection Hbegun as -> -> _.
    unfold resume_reads in Hread. cbn [mapM] in Hread.
    unfold bind at 1 2 3, ret in Hread.
    destruct (getMessages_resume (storage_key p) s0 w0) as [[[m|err] wr] tr]; [|done].
    injection Hread as -> _ _. by intros [= ->]. }
  assert (evaluation_order [(p, s0)] [(p, messages)] = [(p, messages)]) as ->
    by (by apply Permutation_singleton_r, evaluation_order_permutation).
  destruct (Promise_all _ _) as [results|err]; unfold effects_of; cbn [snd];
    rewrite !List.filter_app, Hp0, Hp1; [|done].
  by destruct (concat results).
Qed.

(** X16.  What a provider fetched is what it is asked to evaluate.  With
    one registered provider whose fetch resolves to a sequence, on storage
    that does not fail and gives back what was stored under the provider's
    key, and with [JSON.parse] inverting [JSON.stringify] on the sequence,
    [syncMessages] followed by [dispatchEvent] calls the provider's
    [processInAppMessages] once, with that sequence and the event. *)
Theorem syncMessages_then_dispatchEvent p ms ev w h s st2 st3 :
  pluggables (this w) = [p] ->
  getInAppMessages p = Ok (Some ms) ->
  storage_of w = VStorage h ->
  (storageSynced (this w) = false ->
   forall r s', sync (stores w h) = Some (r, s') -> is_ok r = true) ->
  JSON_stringify ms = Ok s ->
  setItem (storage_key p) s (stores (world_of (syncIfNeeded w)) h) = (Ok tt, st2) ->
  getItem (storage_key p) st2 = (Ok (Some s), st3) ->
  JSON_parse s = Ok ms ->
  List.filter is_process (effects_of (dispatchEvent ev (world_of (syncMessages w)))) =
  [EProcessInAppMessages p (Some ms) ev].
Proof.
  intros Hps Hfetch Hst Hsync Hs Hset Hget Hparse.
  pose proof (syncIfNeeded_sets_flag w h Hst Hsync) as Hflag.
  rewrite (syncMessages_single p (Some ms) w Hps Hfetch).
  rewrite setMessages_alone, world_of_bind, syncIfNeeded_run. cbv beta iota.
  set (w1 := world_of (syncIfNeeded w)) in *.
  assert (storage_of w1 = VStorage h) as Hst1
    by (unfold w1; by rewrite syncIfNeeded_storage_of).
  rewrite (guarded_write_run (storage_key p) ms w1 h s Hst1 Hs), Hset.
  unfold world_of at 1. cbn [fst snd].
  set (w2 := set_store h st2 w1).
  assert (pluggables (this w2) = [p]) as Hps2.
  { unfold w2, w1. simpl.
    by rewrite (keeps_syncIfNeeded (fun w => pluggables (this w))). }
  apply (dispatchEvent_single ev p (Some ms) w2 Hps2).
  unfold w2. rewrite (read_after_store _ w1 h st2 st3 (Some s)) by done.
  rewrite (guarded_read_run _ (set_store h st2 w1) h) by done.
  simpl. rewrite fn_lookup_insert, Hget.
  destruct (String.eqb s "") eqn:Hempty.
  - apply String.eqb_eq in Hempty. subst s.
    pose proof (JSON_parse_empty (Message := Message)) as He.
    by rewrite Hparse in He.
  - by rewrite Hparse.
Qed.

End Properties.

#[export] Existing Instance in_call_order.

(** * The claims on concrete instances *)

(** [dispatchEvent] does not look at a discriminator: given
    [{ event: "other", data: {} }] it reads the cache of the registered
    provider, calls its [processInAppMessages] and publishes the match. *)
Lemma dispatchEvent_other_event_counterexample :
  get_prop (match other_event with VObj o => o | _ => ∅ end) "event" = VStr "other"
  /\ effects_of (dispatchEvent other_event push_cached) =
       [EGetItem 0 "push_inAppMessages";
        EProcessInAppMessages push_provider (Some [a_message; b_message]) other_event;
        ENotify (PMessages [a_message]) MESSAGES_RECEIVED].
Proof. split; reflexivity. Qed.

Lemma analyticsListener_ignores_other_events_witness :
  event {| event := "other"; data := VObj ∅ |} <> "record"
  /\ analyticsListener {| event := "other"; data := VObj ∅ |} push_cached =
       (Ok tt, push_cached, []).
Proof.
  split; [discriminate|].
  apply analyticsListener_ignores_other_events. discriminate.
Defined.

(** C2, on the code.  The claim asks [addPluggable] to configure an accepted
    provider with the merge of the configuration and of its own entry (or
    [{}]).  On a new instance, whose configuration is [{ storage }], the
    provider [push_provider] passes the check and is appended, but its
    [configure] receives [undefined]; the merge, which is what [configure]
    hands to a registered provider, is [{ storage }]. *)
Lemma addPluggable_does_not_merge_config :
  category_ok push_provider = true
  /\ pluggables (this (world_of (addPluggable (Some push_provider) (fresh SyncResolves))))
     = [push_provider]
  /\ effects_of (addPluggable (Some push_provider) (fresh SyncResolves)) =
       [EProviderConfigure push_provider VUndefined]
  /\ result_of (merged_config push_provider (fresh SyncResolves)) =
       Ok (VObj {[ "storage" := VStorage 0 ]}).
Proof. repeat split; reflexivity. Qed.

Example addPluggable_configures_with_own_entry_on_new_instance :
  getCategory push_provider = "Notifications"
  /\ getSubCategory push_provider = "InAppMessaging"
  /\ addPluggable (Some push_provider) (fresh SyncResolves) =
       (Ok tt, set_pluggables [push_provider] (fresh SyncResolves),
        [EProviderConfigure push_provider VUndefined]).
Proof.
  split; [reflexivity|]. split; [reflexivity|].
  apply (addPluggable_configures_with_own_entry push_provider (fresh SyncResolves));
    reflexivity.
Defined.

Lemma registry_holds_only_in_app_messaging_providers_witness :
  let w := world_of (call pinpoint_provider (CallConfigure None) (fresh SyncResolves)) in
  reachable pinpoint_provider 0 (fun _ => empty_memory SyncResolves) w
  /\ pluggables (this w) = [pinpoint_provider]
  /\ addPluggable (Some analytics_provider) w = (Ok tt, w, []).
Proof.
  cbv zeta. split; [apply reachable_call, reachable_new|]. split; [reflexivity|].
  destruct (registry_holds_only_in_app_messaging_providers pinpoint_provider 0
              (fun _ => empty_memory SyncResolves)
              (world_of (call pinpoint_provider (CallConfigure None)
                           (fresh SyncResolves)))) as (_ & Hreject & _).
  - apply reachable_call, reachable_new.
  - apply Hreject. intros [Hc _]. discriminate Hc.
Defined.

Lemma dispatchEvent_publishes_flattened_results_witness :
  List.filter is_received (effects_of (dispatchEvent clicked_event two_providers)) =
    [ENotify (PMessages [a_message]) MESSAGES_RECEIVED].
Proof.
  destruct (dispatchEvent_publishes_flattened_results clicked_event two_providers)
    as (calls & Hps & Hcalls & Hpublished & _).
  destruct calls as [|[p1 m1] [|[p2 m2] [|]]]; try discriminate Hps.
  injection Hps as -> ->.
  assert (List.filter is_process (effects_of (dispatchEvent clicked_event two_providers)) =
          [EProcessInAppMessages push_provider (Some [a_message; b_message]) clicked_event;
           EProcessInAppMessages pull_provider (Some [b_message]) clicked_event])
    as Hmade by reflexivity.
  rewrite Hmade in Hcalls.
  apply Permutation_length_2_inv in Hcalls as [Hsame|Hswapped].
  - injection Hsame as -> ->. exact (Hpublished [[a_message]; []] eq_refl).
  - discriminate Hswapped.
Defined.

(** The example of the dispatch aggregation: the first provider answers
    [[a]], the second answers [[]]; one publication, of [[a]]. *)
Example dispatchEvent_aggregation :
  List.filter is_received (effects_of (dispatchEvent clicked_event two_providers)) =
    [ENotify (PMessages [a_message]) MESSAGES_RECEIVED]
  /\ List.filter is_process (effects_of (dispatchEvent clicked_event two_providers)) =
       [EProcessInAppMessages push_provider (Some [a_message; b_message]) clicked_event;
        EProcessInAppMessages pull_provider (Some [b_message]) clicked_event]
  /\ sync_calls (effects_of (dispatchEvent clicked_event two_providers)) = 2.
Proof. repeat split; reflexivity. Qed.

(** On an instance whose flag is not set and whose storage has no [sync],
    the first branch sets the flag and waits for [syncStorage] while the
    second reads at once: the second provider is evaluated first.  The
    publication is in registry order all the same. *)
Example dispatchEvent_without_sync_function :
  effects_of (dispatchEvent clicked_event two_without_sync) =
    [EGetItem 0 "pull_inAppMessages";
     EGetItem 0 "push_inAppMessages";
     EProcessInAppMessages pull_provider (Some [b_message]) clicked_event;
     EProcessInAppMessages push_provider (Some [a_message; b_message]) clicked_event;
     ENotify (PMessages [a_message]) MESSAGES_RECEIVED].
Proof. reflexivity. Qed.

(** A provider that rejects: the other provider is fetched from, written
    for and evaluated all the same, the join rejects with the provider's
    rejection, and nothing is published. *)
Example rejecting_provider :
  result_of (syncMessages push_and_failing) = Throw "fetch failed"
  /\ effects_of (syncMessages push_and_failing) =
       [EGetInAppMessages push_provider; EGetInAppMessages failing_provider;
        ESetItem 0 "push_inAppMessages" "[ab]"]
  /\ result_of (dispatchEvent clicked_event push_and_failing) = Throw "evaluation failed"
  /\ List.filter is_process (effects_of (dispatchEvent clicked_event push_and_failing)) =
       [EProcessInAppMessages push_provider (Some [a_message; b_message]) clicked_event;
        EProcessInAppMessages failing_provider (Some []) clicked_event]
  /\ List.filter is_received (effects_of (dispatchEvent clicked_event push_and_failing)) = [].
Proof. repeat split; reflexivity. Qed.

(** Two fetches reject: [syncMessages] rejects with the rejection that
    settles first, the first provider's when the fetches settle in the
    order of the calls and the second provider's when the last fetch
    settles first.  So does [dispatchEvent] with the rejections of
    [processInAppMessages]. *)
Example first_rejection_in_time :
  result_of (syncMessages (timing := in_call_order) two_failing) = Throw "fetch failed"
  /\ result_of (syncMessages (timing := last_first) two_failing) = Throw "unreachable"
  /\ result_of (dispatchEvent (timing := in_call_order) clicked_event two_failing) =
       Throw "evaluation failed"
  /\ result_of (dispatchEvent (timing := last_first) clicked_event two_failing) =
       Throw "unreachable".
Proof. repeat split; reflexivity. Qed.

(** When the last fetch settles first, its entry is written first. *)
Example writes_follow_the_fetches :
  List.filter is_storage_write (effects_of (syncMessages (timing := last_first) two_synced)) =
    [ESetItem 0 "pull_inAppMessages" "[]"; ESetItem 0 "push_inAppMessages" "[ab]"].
Proof. reflexivity. Qed.

(** Fail-open: a throwing read resolves to [undefined]. *)
Example getMessages_fail_open :
  let w := constructor 0 (fun _ => broken_memory) in
  result_of (getMessages "push_inAppMessages" w) = Ok None.
Proof. reflexivity. Qed.

Lemma cache_round_trip_witness :
  let w := fresh SyncResolves in
  let st := memory_put "push_inAppMessages" "[ab]" (empty_memory SyncResolves) in
  storage_of w = VStorage 0
  /\ JSON_stringify [a_message; b_message] = Ok "[ab]"
  /\ setItem "push_inAppMessages" "[ab]" (stores (world_of (syncIfNeeded w)) 0) = (Ok tt, st)
  /\ getItem "push_inAppMessages" st = (Ok (Some "[ab]"), st)
  /\ JSON_parse "[ab]" = Ok [a_message; b_message]
  /\ result_of ((setMessages "push_inAppMessages" (Some [a_message; b_message])
                 >> getMessages "push_inAppMessages") w)
     = Ok (Some [a_message; b_message]).
Proof.
  cbv zeta. repeat (split; [reflexivity|]).
  apply (cache_round_trip "push" [a_message; b_message] (fresh SyncResolves) 0 "[ab]"
           (memory_put "push_inAppMessages" "[ab]" (empty_memory SyncResolves))
           (memory_put "push_inAppMessages" "[ab]" (empty_memory SyncResolves)));
    try reflexivity.
  intros _ r s' [= <- _]. reflexivity.
Defined.

Lemma setMessages_without_messages_is_a_no_op_witness :
  let w := fresh SyncRejects in
  storage_of w = VStorage 0
  /\ JSON_stringify (@nil ascii) = Ok "[]"
  /\ setMessages "push_inAppMessages" None w = (Ok tt, w, [])
  /\ List.filter is_storage_write
       (effects_of (setMessages "push_inAppMessages" (Some []) w)) =
     [ESetItem 0 "push_inAppMessages" "[]"].
Proof.
  cbv zeta. split; [reflexivity|]. split; [reflexivity|].
  destruct (setMessages_without_messages_is_a_no_op
              "push_inAppMessages" (fresh SyncRejects)) as [Hnone Hempty].
  split; [exact Hnone|]. apply Hempty; reflexivity.
Defined.

Lemma sync_is_retried_until_it_succeeds_witness :
  let w := fresh SyncRejects in
  let o := CacheRead "push_inAppMessages" in
  storage_of w = VStorage 0
  /\ is_ok (result_of (cache_op o w)) = true
  /\ sync_calls (effects_of (cache_op o w)) = 1
  /\ storageSynced (this (world_of (cache_op o w))) = false.
Proof.
  cbv zeta. split; [reflexivity|].
  destruct (sync_is_retried_until_it_succeeds
              (CacheRead "push_inAppMessages") (fresh SyncRejects) 0 eq_refl)
    as (Hok & Hstep & _).
  split; [exact Hok | exact Hstep].
Defined.

Lemma configure_effective_config_witness :
  let calls := [CallConfigure (Some {[ "listenForAnalyticsEvents" := VBool false ]})] in
  let arg := Some (<["region" := VStr "eu-west-1"]>
                     (<["listenForAnalyticsEvents" := VBool true]> ∅)) in
  let w := after pinpoint_provider calls (fresh SyncResolves) in
  let x := configure pinpoint_provider arg w in
  Forall (fun c => provides_storage c = false) (calls ++ [CallConfigure arg])
  /\ config (this (world_of x)) !! "listenForAnalyticsEvents" = None
  /\ config (this (world_of x)) !! "storage" = Some (VStorage 0).
Proof.
  cbv zeta.
  assert (Forall (fun c : Call ascii => provides_storage c = false)
            ([CallConfigure (Some {[ "listenForAnalyticsEvents" := VBool false ]})]
             ++ [CallConfigure
                   (Some (<["region" := VStr "eu-west-1"]>
                            (<["listenForAnalyticsEvents" := VBool true]> ∅)))]))
    as Hcalls by (repeat constructor).
  split; [exact Hcalls|].
  destruct (configure_effective_config pinpoint_provider 0
              (fun _ => empty_memory SyncResolves)
              [CallConfigure (Some {[ "listenForAnalyticsEvents" := VBool false ]})]
              (Some (<["region" := VStr "eu-west-1"]>
                       (<["listenForAnalyticsEvents" := VBool true]> ∅))))
    as (_ & Hlisten & _ & Hstorage).
  split; [exact Hlisten | exact (Hstorage Hcalls)].
Defined.

Lemma syncStorage_without_sync_function_witness :
  let w := fresh NoSyncFunction in
  storage_of w = VStorage 0
  /\ sync (stores w 0) = None
  /\ syncStorage w = (Ok tt, set_storageSynced true w, [])
  /\ getMessages "push_inAppMessages" w =
     getMessages "push_inAppMessages" (set_storageSynced true w).
Proof.
  cbv zeta. split; [reflexivity|]. split; [reflexivity|].
  assert (sync (stores (fresh NoSyncFunction) 0) = None) as Hnone by reflexivity.
  destruct (syncStorage_without_sync_function (fresh NoSyncFunction) 0 eq_refl Hnone)
    as (Hsync & Hread & _).
  split; [exact Hsync | exact (Hread "push_inAppMessages")].
Defined.

(** * Further properties on concrete instances *)

Lemma removePluggable_removes_first_named_witness :
  pluggables (this two_providers) = [push_provider] ++ pull_provider :: []
  /\ getProviderName pull_provider = "pull"
  /\ Forall (fun q => getProviderName q <> "pull") [push_provider]
  /\ removePluggable "pull" two_providers =
     (Ok tt, set_pluggables ([push_provider] ++ []) two_providers, []).
Proof.
  assert (Forall (fun q : InAppMessagingProvider ascii => getProviderName q <> "pull")
            [push_provider]) as Hothers by (repeat constructor; discriminate).
  split; [reflexivity|]. split; [reflexivity|]. split; [exact Hothers|].
  apply (proj1 (removePluggable_removes_first_named "pull" two_providers)
           [push_provider] pull_provider [] eq_refl eq_refl Hothers).
Defined.

Lemma addPluggable_then_lookup_and_remove_witness :
  let w1 := world_of (addPluggable (Some pull_provider) push_cached) in
  let w2 := world_of (removePluggable "pull" w1) in
  getCategory pull_provider = "Notifications"
  /\ getSubCategory pull_provider = "InAppMessaging"
  /\ Forall (fun q => getProviderName q <> "pull") (pluggables (this push_cached))
  /\ result_of (getPluggable "pull" w1) = Ok (Some pull_provider)
  /\ pluggables (this w2) = pluggables (this push_cached)
  /\ result_of (getPluggable "pull" w2) = Ok None.
Proof.
  cbv zeta.
  assert (Forall (fun q : InAppMessagingProvider ascii => getProviderName q <> "pull")
            (pluggables (this push_cached))) as Hothers
    by (repeat constructor; discriminate).
  split; [reflexivity|]. split; [reflexivity|]. split; [exact Hothers|].
  apply (addPluggable_then_lookup_and_remove pull_provider push_cached
           eq_refl eq_refl Hothers).
Defined.

Lemma addPluggable_keeps_duplicates_witness :
  let w1 := world_of (addPluggable (Some push_twin) push_cached) in
  getCategory push_twin = "Notifications"
  /\ getSubCategory push_twin = "InAppMessaging"
  /\ pluggables (this push_cached) = [] ++ push_provider :: []
  /\ getProviderName push_provider = getProviderName push_twin
  /\ pluggables (this w1) = [push_provider; push_twin]
  /\ result_of (getPluggable "push" w1) = Ok (Some push_provider)
  /\ pluggables (this (world_of (removePluggable "push" w1))) = [push_twin].
Proof.
  cbv zeta. repeat (split; [reflexivity|]).
  apply (addPluggable_keeps_duplicates push_twin push_provider [] [] push_cached
           eq_refl eq_refl eq_refl eq_refl (Forall_nil _)).
Defined.

Lemma configure_registers_default_provider_witness :
  let x := configure pinpoint_provider None (fresh SyncResolves) in
  pluggables (this (fresh SyncResolves)) = []
  /\ pluggables (this (world_of x)) = [pinpoint_provider]
  /\ List.filter is_configure (effects_of x) =
     [EProviderConfigure pinpoint_provider VUndefined].
Proof.
  cbv zeta. split; [reflexivity|].
  destruct (configure_registers_default_provider pinpoint_provider None
              (fresh SyncResolves)) as [Hregistry Hcalls].
  split; [exact Hregistry | exact (Hcalls eq_refl)].
Defined.


Lemma configure_merges_shallowly_witness :
  let w1 := world_of (configure pinpoint_provider (Some push_config)
                        (fresh SyncResolves)) in
  "storage" <> "listenForAnalyticsEvents"
  /\ config (this w1) !! "storage" = Some (VStorage 0)
  /\ config (this (world_of (configure pinpoint_provider (Some push_config) w1))) =
     config (this w1).
Proof.
  cbv zeta.
  assert ("storage" <> "listenForAnalyticsEvents") as Hk by discriminate.
  split; [exact Hk|].
  destruct (configure_merges_shallowly pinpoint_provider (Some push_config)
              (fresh SyncResolves)) as [Hkeys Hagain].
  split; [exact (Hkeys "storage" Hk) | exact Hagain].
Defined.

Lemma hub_is_subscribed_at_most_once_witness :
  let calls := [CallConfigure None; CallConfigure None; CallDispatchEvent clicked_event] in
  hub_listens (run_calls pinpoint_provider calls (fresh SyncResolves)).2 = 1
  /\ listeningForAnalyticEvents (this push_cached) = true
  /\ listeningForAnalyticEvents
       (this (run_calls pinpoint_provider calls push_cached).1) = true.
Proof.
  cbv zeta. split.
  - exact (proj1 (hub_is_subscribed_at_most_once pinpoint_provider
                    [CallConfigure None; CallConfigure None;
                     CallDispatchEvent clicked_event] (fresh SyncResolves))).
  - split; [reflexivity|].
    exact (proj2 (hub_is_subscribed_at_most_once pinpoint_provider
                    [CallConfigure None; CallConfigure None;
                     CallDispatchEvent clicked_event] push_cached) eq_refl).
Defined.

Lemma synced_instance_never_syncs_again_witness :
  let calls := [CallDispatchEvent clicked_event; CallSyncMessages; CallClearMessages;
                CallConfigure (Some {[ "storage" := VStorage 1 ]});
                CallDispatchEvent clicked_event] in
  storageSynced (this push_cached) = true
  /\ sync_calls (run_calls pinpoint_provider calls push_cached).2 = 0
  /\ storageSynced (this (run_calls pinpoint_provider calls push_cached).1) = true.
Proof.
  cbv zeta. split; [reflexivity|].
  apply (synced_instance_never_syncs_again pinpoint_provider). reflexivity.
Defined.



Lemma clearMessages_removes_every_slot_witness :
  storageSynced (this push_cached) = true
  /\ storage_of push_cached = VStorage 0
  /\ is_ok (result_of (clearMessages push_cached)) = true
  /\ List.filter is_storage_write (effects_of (clearMessages push_cached)) =
     [ERemoveItem 0 "push_inAppMessages"].
Proof.
  split; [reflexivity|]. split; [reflexivity|].
  destruct (clearMessages_removes_every_slot push_cached) as [Hok Hremoves].
  split; [exact Hok|]. rewrite (Hremoves 0 eq_refl eq_refl). reflexivity.
Defined.

Lemma dispatchEvent_rejects_only_with_a_provider_witness :
  result_of (dispatchEvent clicked_event push_and_failing) = Throw "evaluation failed"
  /\ exists p messages,
       In (EProcessInAppMessages p messages clicked_event)
          (effects_of (dispatchEvent clicked_event push_and_failing))
       /\ processInAppMessages p messages clicked_event = Throw "evaluation failed".
Proof.
  assert (result_of (dispatchEvent clicked_event push_and_failing)
          = Throw "evaluation failed") as Hrejects by reflexivity.
  split; [exact Hrejects|].
  destruct (dispatchEvent_rejects_only_with_a_provider clicked_event push_and_failing)
    as (Hcall & _).
  exact (Hcall "evaluation failed" Hrejects).
Defined.

Lemma cache_clear_then_read_witness :
  let w := push_cached in
  let st := memory_remove "push_inAppMessages"
              (memory_put "push_inAppMessages" "[ab]" (empty_memory SyncResolves)) in
  storage_of w = VStorage 0
  /\ removeItem "push_inAppMessages" (stores (world_of (syncIfNeeded w)) 0) = (Ok tt, st)
  /\ getItem "push_inAppMessages" st = (Ok None, st)
  /\ result_of ((removeMessages "push_inAppMessages" >> getMessages "push_inAppMessages") w)
     = Ok (Some []).
Proof.
  cbv zeta. repeat (split; [reflexivity|]).
  apply (cache_clear_then_read "push_inAppMessages" push_cached 0
           (memory_remove "push_inAppMessages"
              (memory_put "push_inAppMessages" "[ab]" (empty_memory SyncResolves)))
           (memory_remove "push_inAppMessages"
              (memory_put "push_inAppMessages" "[ab]" (empty_memory SyncResolves))));
    try reflexivity.
  intros Hflag. discriminate Hflag.
Defined.

Lemma syncMessages_then_dispatchEvent_witness :
  let st := memory_put "push_inAppMessages" "[ab]" (empty_memory SyncResolves) in
  pluggables (this one_provider) = [push_provider]
  /\ getInAppMessages push_provider = Ok (Some [a_message; b_message])
  /\ storage_of one_provider = VStorage 0
  /\ JSON_stringify [a_message; b_message] = Ok "[ab]"
  /\ setItem (storage_key push_provider) "[ab]"
       (stores (world_of (syncIfNeeded one_provider)) 0) = (Ok tt, st)
  /\ getItem (storage_key push_provider) st = (Ok (Some "[ab]"), st)
  /\ JSON_parse "[ab]" = Ok [a_message; b_message]
  /\ List.filter is_process
       (effects_of (dispatchEvent clicked_event (world_of (syncMessages one_provider)))) =
     [EProcessInAppMessages push_provider (Some [a_message; b_message]) clicked_event].
Proof.
  cbv zeta. repeat (split; [reflexivity|]).
  apply (syncMessages_then_dispatchEvent push_provider [a_message; b_message]
           clicked_event one_provider 0 "[ab]"
           (memory_put "push_inAppMessages" "[ab]" (empty_memory SyncResolves))
           (memory_put "push_inAppMessages" "[ab]" (empty_memory SyncResolves)));
    try reflexivity.
  intros _ r s' [= <- _]. reflexivity.
Defined.
